(** * Upload submission and job-status streaming: the two React hooks

    A shallow embedding of [frontend/src/hooks/useWebSocket.js] and
    [frontend/src/hooks/useProductUpload.js].

    - [JS]: the JavaScript values the hooks handle (parsed JSON frames,
      response bodies), truthiness, [||], property reads.
    - [Encoding]: the platform text codecs behind [file.text()] and
      [new TextEncoder().encode] (WHATWG UTF-8 decode with replacement,
      UTF-16 strings, UTF-8 encode).
    - [WS]: [useWebSocket] as handlers over an explicit world (React state,
      the four refs, the browser's sockets and timers) and a [step] function
      that dispatches browser events to them.
    - [Upload]: [useProductUpload]'s [uploadFile] and [reset].
    - [EncodingProofs], [WSProofs], [UploadProofs]: what holds of them. *)

From Stdlib Require Import ZArith QArith String Ascii List Bool Lia.
From Stdlib Require Import Strings.Byte.
From stdpp Require Import base list.
Import ListNotations.

Set Warnings "-register-all".
Local Open Scope string_scope.
Local Open Scope list_scope.
Local Open Scope Z_scope.

(* ================================================================== *)
(** ** JavaScript values *)

Module JS.

(** What [JSON.parse] returns, plus [undefined] (the result of reading an
    absent property).  A number stands for its numeric value; the rounding of
    a literal to an IEEE double is outside the model, and values are only
    tested for truthiness and passed on. An object is the list of its
    properties. *)
Inductive value : Type :=
| VUndefined
| VNull
| VBool (b : bool)
| VNum (q : Q)
| VStr (s : string)
| VArr (items : list value)
| VObj (props : list (string * value)).

(** [ToBoolean]: [undefined], [null], [false], [0] and the empty string are
    falsy; every array and object is truthy. *)
Definition truthy (v : value) : bool :=
  match v with
  | VUndefined | VNull => false
  | VBool b => b
  | VNum q => negb (Qnum q =? 0)%Z
  | VStr s => negb (s =? "")%string
  | VArr _ | VObj _ => true
  end.

(** [a || b] *)
Definition or_else (a b : value) : value := if truthy a then a else b.

Fixpoint assoc (k : string) (props : list (string * value)) : value :=
  match props with
  | [] => VUndefined
  | (k', v) :: rest => if (k' =? k)%string then v else assoc k rest
  end.

(** [v.k] for the property names the hooks read ([type], [message],
    [detail], [processed], [total], [percentage], [job_id]): [None] is the
    [TypeError] of reading a property of [null] or [undefined]; primitives
    and arrays have no such property. *)
Definition get (v : value) (k : string) : option value :=
  match v with
  | VUndefined | VNull => None
  | VObj props => Some (assoc k props)
  | _ => Some VUndefined
  end.

(** [v?.k] *)
Definition get_opt (v : value) (k : string) : value :=
  match get v k with Some x => x | None => VUndefined end.

(** [v === 'lit'] *)
Definition is_str (v : value) (lit : string) : bool :=
  match v with VStr s => (s =? lit)%string | _ => false end.

Definition num (z : Z) : value := VNum (inject_Z z).

End JS.

(* ================================================================== *)
(** ** Text codecs of the platform *)

Module Encoding.

Definition b2z (b : byte) : Z := Z.of_N (Byte.to_N b).

Definition z2b (z : Z) : byte :=
  match Byte.of_N (Z.to_N z) with Some b => b | None => Byte.x00 end.

(** A JavaScript string: its UTF-16 code units. *)
Definition DOMString := list Z.

Definition REPLACEMENT : Z := 0xFFFD.

(** State of the WHATWG UTF-8 decoder. *)
Record DecState := mkDec {
  code_point : Z;
  bytes_seen : Z;
  bytes_needed : Z;
  lower_boundary : Z;
  upper_boundary : Z
}.

Definition dec_init : DecState := mkDec 0 0 0 0x80 0xBF.

Inductive Lead := LeadEmit (cp : Z) | LeadStart (st : DecState) | LeadError.

(** The decoder's handling of a byte when no continuation is expected. *)
Definition lead (byte : Z) : Lead :=
  if byte <=? 0x7F then LeadEmit byte
  else if (0xC2 <=? byte) && (byte <=? 0xDF) then
    LeadStart (mkDec (Z.land byte 0x1F) 0 1 0x80 0xBF)
  else if (0xE0 <=? byte) && (byte <=? 0xEF) then
    LeadStart (mkDec (Z.land byte 0xF) 0 2
                     (if byte =? 0xE0 then 0xA0 else 0x80)
                     (if byte =? 0xED then 0x9F else 0xBF))
  else if (0xF0 <=? byte) && (byte <=? 0xF4) then
    LeadStart (mkDec (Z.land byte 0x7) 0 3
                     (if byte =? 0xF0 then 0x90 else 0x80)
                     (if byte =? 0xF4 then 0x8F else 0xBF))
  else LeadError.

(** The decoder run over a byte queue in error mode "replacement": a byte
    outside the expected continuation range yields U+FFFD and is then
    handled again from the initial state; a sequence cut off by the end of
    the queue yields U+FFFD. *)
Fixpoint utf8_decoder (st : DecState) (bs : list byte) : list Z :=
  match bs with
  | [] => if bytes_needed st =? 0 then [] else [REPLACEMENT]
  | b :: rest =>
      let byte := b2z b in
      let from_lead :=
        match lead byte with
        | LeadEmit cp => cp :: utf8_decoder dec_init rest
        | LeadStart st' => utf8_decoder st' rest
        | LeadError => REPLACEMENT :: utf8_decoder dec_init rest
        end in
      if bytes_needed st =? 0 then from_lead
      else if (byte <? lower_boundary st) || (upper_boundary st <? byte) then
        REPLACEMENT :: from_lead
      else
        let cp := Z.lor (Z.shiftl (code_point st) 6) (Z.land byte 0x3F) in
        let seen := bytes_seen st + 1 in
        if seen =? bytes_needed st then cp :: utf8_decoder dec_init rest
        else utf8_decoder (mkDec cp seen (bytes_needed st) 0x80 0xBF) rest
  end.

(** "UTF-8 decode" first drops a leading byte-order mark EF BB BF. *)
Definition strip_bom (bs : list byte) : list byte :=
  match bs with
  | b1 :: b2 :: b3 :: rest =>
      if (b2z b1 =? 0xEF) && (b2z b2 =? 0xBB) && (b2z b3 =? 0xBF) then rest else bs
  | _ => bs
  end.

Definition utf8_decode (bs : list byte) : list Z := utf8_decoder dec_init (strip_bom bs).

(** A code point as UTF-16 code units. *)
Definition utf16_units (cp : Z) : list Z :=
  if cp <? 0x10000 then [cp]
  else [0xD800 + Z.shiftr (cp - 0x10000) 10; 0xDC00 + Z.land (cp - 0x10000) 0x3FF].

(** [blob.text()]: the string for the decoded content. *)
Definition text (bs : list byte) : DOMString := flat_map utf16_units (utf8_decode bs).

Definition is_lead_surrogate (u : Z) : bool := (0xD800 <=? u) && (u <=? 0xDBFF).
Definition is_trail_surrogate (u : Z) : bool := (0xDC00 <=? u) && (u <=? 0xDFFF).

(** A string's scalar values: surrogate pairs are combined, a surrogate on its
    own becomes U+FFFD. *)
Fixpoint scalar_values (units : DOMString) : list Z :=
  match units with
  | [] => []
  | u :: rest =>
      if is_lead_surrogate u then
        match rest with
        | u2 :: rest2 =>
            if is_trail_surrogate u2
            then (0x10000 + Z.shiftl (u - 0xD800) 10 + (u2 - 0xDC00)) :: scalar_values rest2
            else REPLACEMENT :: scalar_values rest
        | [] => [REPLACEMENT]
        end
      else if is_trail_surrogate u then REPLACEMENT :: scalar_values rest
      else u :: scalar_values rest
  end.

Definition continuation (x : Z) : byte := z2b (Z.lor 0x80 (Z.land x 0x3F)).

(** The UTF-8 encoder on one scalar value. *)
Definition utf8_encode_cp (cp : Z) : list byte :=
  if cp <=? 0x7F then [z2b cp]
  else if cp <=? 0x7FF then
    [z2b (Z.shiftr cp 6 + 0xC0); continuation cp]
  else if cp <=? 0xFFFF then
    [z2b (Z.shiftr cp 12 + 0xE0); continuation (Z.shiftr cp 6); continuation cp]
  else
    [z2b (Z.shiftr cp 18 + 0xF0); continuation (Z.shiftr cp 12);
     continuation (Z.shiftr cp 6); continuation cp].

Definition utf8_encode (cps : list Z) : list byte := flat_map utf8_encode_cp cps.

(** [new TextEncoder().encode(s)] *)
Definition TextEncoder_encode (s : DOMString) : list byte := utf8_encode (scalar_values s).

(** Unicode scalar values: code points that are not surrogates. *)
Definition is_scalar (cp : Z) : Prop :=
  0 <= cp <= 0x10FFFF /\ ~ (0xD800 <= cp <= 0xDFFF).

End Encoding.

(* ================================================================== *)
(** ** useWebSocket *)

Module WS.
Import JS.

(** The five string literals ever passed to [setStatus]. *)
Inductive Status := S_disconnected | S_connecting | S_connected | S_complete | S_error.

Definition Status_eqb (a b : Status) : bool :=
  match a, b with
  | S_disconnected, S_disconnected | S_connecting, S_connecting
  | S_connected, S_connected | S_complete, S_complete | S_error, S_error => true
  | _, _ => false
  end.

(** The object literals appended by [setLogs], one constructor per shape;
    [timestamp] is the clock reading of [new Date()] in milliseconds. *)
Inductive LogEntry :=
| L_system (message : string) (timestamp : Z)
| L_log (message : value) (timestamp : Z)
| L_progress (message processed total percentage : value) (timestamp : Z)
| L_error (message detail : value) (timestamp : Z)
| L_complete (message processed total : value) (timestamp : Z).

(** [WebSocket.readyState] *)
Inductive ReadyState := CONNECTING | OPEN | CLOSING | CLOSED.

(** A [WebSocket] object created by [connect]: the job id its URL was built
    from (its handlers close over it), its ready state, and whether its close
    event has been dispatched. *)
Record Socket := mkSocket {
  sock_job : value;
  readyState : ReadyState;
  close_fired : bool
}.

(** A [setTimeout] entry: its callback is [connect] of [timer_job], guarded
    by the flag. *)
Record Timer := mkTimer {
  due : Z;
  timer_job : value;
  pending : bool
}.

(** React state (the latest value given to each setter), the four refs, and
    the browser's side: every socket and timer created so far, indexed by
    handle, and the clock. [cleanupRegistered] is React's record that the
    last run of the effect returned its cleanup function. *)
Record World := mkWorld {
  logs : list LogEntry;
  progress : value;
  total : value;
  percentage : value;
  status : Status;
  error : value;
  wsRef : option nat;
  reconnectTimeoutRef : option nat;
  statusRef : Status;
  shouldReconnectRef : bool;
  cleanupRegistered : bool;
  sockets : list Socket;
  timers : list Timer;
  now : Z
}.

Definition setLogs (f : list LogEntry -> list LogEntry) (w : World) : World :=
  mkWorld (f (logs w)) (progress w) (total w) (percentage w) (status w) (error w)
          (wsRef w) (reconnectTimeoutRef w) (statusRef w) (shouldReconnectRef w)
          (cleanupRegistered w) (sockets w) (timers w) (now w).
Definition setProgress (v : value) (w : World) : World :=
  mkWorld (logs w) v (total w) (percentage w) (status w) (error w)
          (wsRef w) (reconnectTimeoutRef w) (statusRef w) (shouldReconnectRef w)
          (cleanupRegistered w) (sockets w) (timers w) (now w).
Definition setTotal (v : value) (w : World) : World :=
  mkWorld (logs w) (progress w) v (percentage w) (status w) (error w)
          (wsRef w) (reconnectTimeoutRef w) (statusRef w) (shouldReconnectRef w)
          (cleanupRegistered w) (sockets w) (timers w) (now w).
Definition setPercentage (v : value) (w : World) : World :=
  mkWorld (logs w) (progress w) (total w) v (status w) (error w)
          (wsRef w) (reconnectTimeoutRef w) (statusRef w) (shouldReconnectRef w)
          (cleanupRegistered w) (sockets w) (timers w) (now w).
Definition setStatus (s : Status) (w : World) : World :=
  mkWorld (logs w) (progress w) (total w) (percentage w) s (error w)
          (wsRef w) (reconnectTimeoutRef w) (statusRef w) (shouldReconnectRef w)
          (cleanupRegistered w) (sockets w) (timers w) (now w).
Definition setError (v : value) (w : World) : World :=
  mkWorld (logs w) (progress w) (total w) (percentage w) (status w) v
          (wsRef w) (reconnectTimeoutRef w) (statusRef w) (shouldReconnectRef w)
          (cleanupRegistered w) (sockets w) (timers w) (now w).
Definition set_wsRef (r : option nat) (w : World) : World :=
  mkWorld (logs w) (progress w) (total w) (percentage w) (status w) (error w)
          r (reconnectTimeoutRef w) (statusRef w) (shouldReconnectRef w)
          (cleanupRegistered w) (sockets w) (timers w) (now w).
Definition set_reconnectTimeoutRef (r : option nat) (w : World) : World :=
  mkWorld (logs w) (progress w) (total w) (percentage w) (status w) (error w)
          (wsRef w) r (statusRef w) (shouldReconnectRef w)
          (cleanupRegistered w) (sockets w) (timers w) (now w).
Definition set_statusRef (s : Status) (w : World) : World :=
  mkWorld (logs w) (progress w) (total w) (percentage w) (status w) (error w)
          (wsRef w) (reconnectTimeoutRef w) s (shouldReconnectRef w)
          (cleanupRegistered w) (sockets w) (timers w) (now w).
Definition set_shouldReconnectRef (b : bool) (w : World) : World :=
  mkWorld (logs w) (progress w) (total w) (percentage w) (status w) (error w)
          (wsRef w) (reconnectTimeoutRef w) (statusRef w) b
          (cleanupRegistered w) (sockets w) (timers w) (now w).
Definition set_cleanupRegistered (b : bool) (w : World) : World :=
  mkWorld (logs w) (progress w) (total w) (percentage w) (status w) (error w)
          (wsRef w) (reconnectTimeoutRef w) (statusRef w) (shouldReconnectRef w)
          b (sockets w) (timers w) (now w).
Definition set_sockets (l : list Socket) (w : World) : World :=
  mkWorld (logs w) (progress w) (total w) (percentage w) (status w) (error w)
          (wsRef w) (reconnectTimeoutRef w) (statusRef w) (shouldReconnectRef w)
          (cleanupRegistered w) l (timers w) (now w).
Definition set_timers (l : list Timer) (w : World) : World :=
  mkWorld (logs w) (progress w) (total w) (percentage w) (status w) (error w)
          (wsRef w) (reconnectTimeoutRef w) (statusRef w) (shouldReconnectRef w)
          (cleanupRegistered w) (sockets w) l (now w).
Definition set_now (t : Z) (w : World) : World :=
  mkWorld (logs w) (progress w) (total w) (percentage w) (status w) (error w)
          (wsRef w) (reconnectTimeoutRef w) (statusRef w) (shouldReconnectRef w)
          (cleanupRegistered w) (sockets w) (timers w) t.

(** The hook as first rendered: [useState] and [useRef] initial values, no
    socket, no timer. *)
Definition initial : World :=
  mkWorld [] (num 0) (num 0) (num 0) S_disconnected VNull
          None None S_disconnected true false [] [] 0.

(** *** Browser primitives *)

Definition set_readyState (rs : ReadyState) (s : Socket) : Socket :=
  mkSocket (sock_job s) rs (close_fired s).

Definition readyState_of (id : nat) (w : World) : option ReadyState :=
  readyState <$> (sockets w !! id).

Definition is_open (id : nat) (w : World) : bool :=
  match readyState_of id w with Some OPEN => true | _ => false end.

(** [ws.close()]: starts the closing handshake of a connecting or open
    socket; the close event comes later. *)
Definition ws_close (id : nat) (w : World) : World :=
  match sockets w !! id with
  | Some s =>
      match readyState s with
      | CONNECTING | OPEN => set_sockets (<[id := set_readyState CLOSING s]> (sockets w)) w
      | CLOSING | CLOSED => w
      end
  | None => w
  end.

(** [clearTimeout(t)] *)
Definition clearTimeout (t : nat) (w : World) : World :=
  match timers w !! t with
  | Some tm => set_timers (<[t := mkTimer (due tm) (timer_job tm) false]> (timers w)) w
  | None => w
  end.

Definition reconnectDelay : Z := 3000.

(** *** The handlers *)

Section Handlers.

(** [new WebSocket(url)] throws on a URL it rejects; [url_error job] is the
    message of that exception for the URL built from [job], if any. *)
Variable url_error : value -> option string.

(** [if (wsRef.current && wsRef.current.readyState === WebSocket.OPEN)
       wsRef.current.close()] *)
Definition close_current_if_open (w : World) : World :=
  match wsRef w with
  | Some cur => if is_open cur w then ws_close cur w else w
  | None => w
  end.

(** [connect] (lines 29-135) for the effect run of [job]. *)
Definition connect (job : value) (w : World) : World :=
  if negb (shouldReconnectRef w) then w
  else
    let w := setError VNull (setStatus S_connecting w) in
    match url_error job with
    | Some msg => setError (VStr msg) (setStatus S_error w)
    | None =>
        let id := length (sockets w) in
        set_wsRef (Some id) (set_sockets (sockets w ++ [mkSocket job CONNECTING false]) w)
    end.

(** [ws.onopen] of socket [id] *)
Definition onopen (id : nat) (w : World) : World :=
  if negb (shouldReconnectRef w) then ws_close id w
  else
    setLogs (fun prev => prev ++ [L_system "Connected to server" (now w)])
            (setStatus S_connected w).

(** [ws.onmessage]; [parsed] is the outcome of [JSON.parse(event.data)],
    [None] when it throws. Every exception ends in the [catch], which only
    writes to the console. *)
Definition onmessage (parsed : option value) (w : World) : World :=
  match parsed with
  | None => w
  | Some data =>
      match get data "type" with
      | None => w
      | Some ty =>
          let f k := get_opt data k in
          if is_str ty "log" then
            setLogs (fun prev => prev ++ [L_log (f "message") (now w)]) w
          else if is_str ty "progress" then
            let w := setProgress (or_else (f "processed") (num 0)) w in
            let w := setTotal (or_else (f "total") (num 0)) w in
            let w := setPercentage (or_else (f "percentage") (num 0)) w in
            setLogs (fun prev => prev ++
              [L_progress (f "message") (f "processed") (f "total") (f "percentage") (now w)]) w
          else if is_str ty "error" then
            let w := set_shouldReconnectRef false w in
            let w := setStatus S_error w in
            let w := setError (f "message") w in
            let w := setLogs (fun prev => prev ++
              [L_error (f "message") (f "detail") (now w)]) w in
            close_current_if_open w
          else if is_str ty "complete" then
            let w := set_shouldReconnectRef false w in
            let w := setStatus S_complete w in
            let w := setProgress (or_else (f "processed") (num 0)) w in
            let w := setTotal (or_else (or_else (f "total") (f "processed")) (num 0)) w in
            let w := setPercentage (num 100) w in
            let w := setLogs (fun prev => prev ++
              [L_complete (f "message") (f "processed")
                          (or_else (f "total") (f "processed")) (now w)]) w in
            close_current_if_open w
          else w
      end
  end.

(** [ws.onerror] *)
Definition onerror (w : World) : World :=
  setError (VStr "WebSocket connection error") (setStatus S_error w).

(** [setTimeout(cb, 3000)] where [cb] reconnects [job]: a new pending timer,
    whose handle is stored in the ref (the browser's handles are positive
    integers, so a stored handle is always truthy). *)
Definition schedule_reconnect (job : value) (w : World) : World :=
  let t := length (timers w) in
  set_reconnectTimeoutRef (Some t)
    (set_timers (timers w ++ [mkTimer (now w + reconnectDelay) job true]) w).

(** [ws.onclose] of a socket created for [job] *)
Definition onclose (job : value) (w : World) : World :=
  let w := setStatus S_disconnected w in
  if shouldReconnectRef w
     && negb (Status_eqb (statusRef w) S_complete)
     && negb (Status_eqb (statusRef w) S_error)
  then schedule_reconnect job w
  else w.

(** The timer callback: [if (shouldReconnectRef.current) connect()] *)
Definition reconnect_callback (job : value) (w : World) : World :=
  if shouldReconnectRef w then connect job w else w.

(** The function returned by the effect (lines 139-154). *)
Definition cleanup (w : World) : World :=
  let w := set_shouldReconnectRef false w in
  let w := match reconnectTimeoutRef w with
           | Some t => set_reconnectTimeoutRef None (clearTimeout t w)
           | None => w
           end in
  let w := match wsRef w with
           | Some id => set_wsRef None (ws_close id w)
           | None => w
           end in
  let w := setLogs (fun _ => []) w in
  let w := setProgress (num 0) w in
  let w := setTotal (num 0) w in
  let w := setPercentage (num 0) w in
  setStatus S_disconnected w.

(** The body of the second effect for a render with [jobId = job]: nothing
    (and no cleanup to register) for a falsy id. *)
Definition effect (job : value) (w : World) : World :=
  if negb (truthy job) then set_cleanupRegistered false w
  else
    let w := set_shouldReconnectRef true w in
    set_cleanupRegistered true (connect job w).

(** The first effect: [statusRef.current = status]. *)
Definition sync_statusRef (w : World) : World := set_statusRef (status w) w.

(** *** Events *)

(** What React and the browser do to the hook.
    - [JobChange job]: a render with a new [jobId] is committed: the previous
      cleanup runs if one was registered, the first effect copies the
      rendered status into [statusRef], the second effect runs for [job].
    - [Unmount]: the owning component goes away.
    - [Commit]: a re-render is committed, the first effect runs.
    - [Tick d]: [d] milliseconds pass.
    - [TimerFire t]: timer [t] expires.
    - [SockOpen], [SockMessage], [SockError], [SockClose]: the socket's
      events. *)
Inductive Event :=
| JobChange (job : value)
| Unmount
| Commit
| Tick (d : Z)
| TimerFire (t : nat)
| SockOpen (id : nat)
| SockMessage (id : nat) (parsed : option value)
| SockError (id : nat)
| SockClose (id : nat).

(** The browser delivers [open] only to a connecting socket, [message] only
    to an open one, [error] (a failed connection, marked closed before the
    event) and [close] only while the close event has not been dispatched, and
    runs a timer callback only once, when it is still pending and due. *)
Definition step (w : World) (e : Event) : World :=
  match e with
  | JobChange job =>
      let rendered := status w in
      let w := if cleanupRegistered w then cleanup w else w in
      effect job (set_statusRef rendered w)
  | Unmount =>
      if cleanupRegistered w then set_cleanupRegistered false (cleanup w) else w
  | Commit => sync_statusRef w
  | Tick d => set_now (now w + Z.max 0 d) w
  | TimerFire t =>
      match timers w !! t with
      | Some tm =>
          if pending tm && (due tm <=? now w) then
            reconnect_callback (timer_job tm)
              (set_timers (<[t := mkTimer (due tm) (timer_job tm) false]> (timers w)) w)
          else w
      | None => w
      end
  | SockOpen id =>
      match sockets w !! id with
      | Some s =>
          match readyState s with
          | CONNECTING =>
              onopen id (set_sockets (<[id := set_readyState OPEN s]> (sockets w)) w)
          | _ => w
          end
      | None => w
      end
  | SockMessage id parsed => if is_open id w then onmessage parsed w else w
  | SockError id =>
      match sockets w !! id with
      | Some s =>
          if close_fired s then w
          else onerror (set_sockets (<[id := set_readyState CLOSED s]> (sockets w)) w)
      | None => w
      end
  | SockClose id =>
      match sockets w !! id with
      | Some s =>
          if close_fired s then w
          else onclose (sock_job s)
                 (set_sockets (<[id := mkSocket (sock_job s) CLOSED true]> (sockets w)) w)
      | None => w
      end
  end.

Definition run (w : World) (es : list Event) : World := fold_left step es w.

(** *** Streams used to state the reconnection policy *)

(** Socket [id], created for [job], is the open connection of a stream whose
    status is [connected], which has received no terminal event and has not
    been stopped since it was started (the flag is still set), and for which
    no terminal status has been committed to [statusRef]. *)
Definition Connected (job : value) (id : nat) (w : World) : Prop :=
  sockets w !! id = Some (mkSocket job OPEN false) /\
  status w = S_connected /\
  shouldReconnectRef w = true /\
  statusRef w <> S_complete /\ statusRef w <> S_error.

(** The connection on socket [id] drops; after the delay the timer fires and
    the new socket opens; React commits a render after each change of
    status. *)
Definition drop_and_reconnect (id : nat) (w : World) : list Event :=
  [SockClose id; Commit; Tick reconnectDelay; TimerFire (length (timers w));
   Commit; SockOpen (length (sockets w)); Commit].

(** [n] drops in a row, each followed by its reconnection. *)
Fixpoint retries (n : nat) (id : nat) (w : World) : World :=
  match n with
  | O => w
  | S n' => retries n' (length (sockets w)) (run w (drop_and_reconnect id w))
  end.

(** *** One stream, from its start *)

(** A Complete or Error frame. *)
Definition terminal_frame (data : value) : bool :=
  match get data "type" with
  | Some ty => is_str ty "error" || is_str ty "complete"
  | None => false
  end.

(** Events of a stream that is not being stopped: no change of job id, no
    unmount. *)
Definition stream_event (e : Event) : bool :=
  match e with
  | JobChange _ | Unmount => false
  | _ => true
  end.

(** Such events, terminal frames excluded as well. *)
Definition quiet_event (e : Event) : bool :=
  match e with
  | JobChange _ | Unmount => false
  | SockMessage _ (Some data) => negb (terminal_frame data)
  | _ => true
  end.

Definition all_closed (w : World) : Prop :=
  forall i s, sockets w !! i = Some s -> readyState s = CLOSED.

Definition no_pending_timer (w : World) : Prop :=
  forall t tm, timers w !! t = Some tm -> pending tm = false.

(** What holds throughout the stream of [job]: sockets and timers belong to
    [job] and exist only if its URL is accepted; a socket whose close event
    was dispatched is closed; only the newest socket can still await its
    close event, only the newest timer can be pending, and never both at
    once; while the flag is set, a status [error], current or committed, means
    that every socket is closed and no timer is pending, and a status
    [complete] does not occur. *)
Record StreamInv (job : value) (w : World) : Prop := mkInv {
  inv_sock_job : forall i s, sockets w !! i = Some s -> sock_job s = job;
  inv_timer_job : forall t tm, timers w !! t = Some tm -> timer_job tm = job;
  inv_fired : forall i s,
    sockets w !! i = Some s -> close_fired s = true -> readyState s = CLOSED;
  inv_url : forall i s, sockets w !! i = Some s -> url_error job = None;
  inv_timer_url : forall t tm, timers w !! t = Some tm -> url_error job = None;
  inv_last_socket : forall i s,
    sockets w !! i = Some s -> close_fired s = false -> S i = length (sockets w);
  inv_last_timer : forall t tm,
    timers w !! t = Some tm -> pending tm = true -> S t = length (timers w);
  inv_socket_timer : forall i s t tm,
    sockets w !! i = Some s -> close_fired s = false ->
    timers w !! t = Some tm -> pending tm = true -> False;
  inv_error :
    shouldReconnectRef w = true -> status w = S_error ->
    all_closed w /\ no_pending_timer w;
  inv_errorRef :
    shouldReconnectRef w = true -> statusRef w = S_error ->
    all_closed w /\ no_pending_timer w;
  inv_complete : status w = S_complete -> shouldReconnectRef w = false;
  inv_completeRef : statusRef w = S_complete -> shouldReconnectRef w = false
}.

End Handlers.

(** The Progress frames [ps], delivered in order on socket [id]. *)
Definition progress_events (id : nat) (ps : list value) : list Event :=
  map (fun p => SockMessage id (Some p)) ps.

(** "percentage clamped to [0,100]" *)
Definition pct_in_range (v : value) : Prop :=
  exists q : Q, v = VNum q /\ (0 <= q)%Q /\ (q <= 100)%Q.

(** *** Concrete streams *)

(** A browser whose [WebSocket] constructor accepts every URL. *)
Definition accepts_all : value -> option string := fun _ => None.

Definition job1 : value := VStr "job-1".

(** The stream of [job1] once its socket is open and the render is
    committed. *)
Definition streaming : World :=
  run accepts_all initial [JobChange job1; Commit; SockOpen 0%nat; Commit].

Definition error_frame : value :=
  VObj [("type", VStr "error"); ("message", VStr "boom")].

Definition complete_frame : value :=
  VObj [("type", VStr "complete"); ("processed", num 10); ("total", num 10)].

End WS.

(* ================================================================== *)
(** ** useProductUpload *)

Module Upload.
Import JS.

(** A [File]: its name and its byte content. *)
Record File := mkFile {
  name : string;
  content : list byte
}.

(** What a rejected promise carries as far as the [catch] looks at it:
    [err.message] and [err.response?.data] ([undefined] when there is no
    response). *)
Record Thrown := mkThrown {
  err_message : value;
  err_response_data : value
}.

Inductive Outcome (A : Type) :=
| Fulfilled (a : A)
| Rejected (err : Thrown).
Arguments Fulfilled {A} a.
Arguments Rejected {A} err.

(** The collaborators of [uploadFile]:
    - [read_error f]: the rejection of [f.text()], if reading fails;
    - [gzip]: fflate's [gzip], calling back with an error or the compressed
      bytes;
    - [post filename blob]: [apiClient.post('/api/upload', formData)] for the
      form holding [blob] under [filename]; axios fulfils with
      [response.data] for a 2xx status and rejects otherwise. *)
Record Env := mkEnv {
  read_error : File -> option Thrown;
  gzip : list byte -> Outcome (list byte);
  post : string -> list byte -> Outcome value
}.

(** The hook's three state variables. *)
Record HookState := mkState {
  uploading : bool;
  jobId : value;
  error : value
}.

Definition setUploading (b : bool) (st : HookState) : HookState :=
  mkState b (jobId st) (error st).
Definition setJobId (v : value) (st : HookState) : HookState :=
  mkState (uploading st) v (error st).
Definition setError (v : value) (st : HookState) : HookState :=
  mkState (uploading st) (jobId st) v.

Definition initial : HookState := mkState false VNull VNull.

(** File reads, codec calls and network calls, in the order performed. *)
Inductive IO :=
| IO_read (f : File)
| IO_gzip (data : list byte)
| IO_post (filename : string) (blob : list byte).

(** [s.endsWith(suffix)] *)
Definition endsWith (s suffix : string) : bool :=
  let n := String.length s in
  let m := String.length suffix in
  (m <=? n)%nat && (substring (n - m) m s =? suffix)%string.

(** The exception of [response.data.job_id] when [response.data] is [null]
    or [undefined] (V8's wording). *)
Definition job_id_TypeError (data : value) : Thrown :=
  mkThrown
    (VStr (match data with
           | VNull => "Cannot read properties of null (reading 'job_id')"
           | _ => "Cannot read properties of undefined (reading 'job_id')"
           end))
    VUndefined.

(** Lines 27-45: the text of the file, re-encoded and compressed. *)
Definition compress (env : Env) (file : File) : Outcome (list byte) * list IO :=
  match read_error env file with
  | Some err => (Rejected err, [IO_read file])
  | None =>
      let fileText := Encoding.text (content file) in
      let fileData := Encoding.TextEncoder_encode fileText in
      (gzip env fileData, [IO_read file; IO_gzip fileData])
  end.

(** Lines 47-60: the form post and the job id read from the response. *)
Definition submit (env : Env) (file : File) (compressed : list byte)
  : Outcome value * list IO :=
  let filename := (name file ++ ".gz")%string in
  let io := [IO_post filename compressed] in
  match post env filename compressed with
  | Rejected err => (Rejected err, io)
  | Fulfilled data =>
      match get data "job_id" with
      | None => (Rejected (job_id_TypeError data), io)
      | Some newJobId => (Fulfilled newJobId, io)
      end
  end.

(** The [try] block. *)
Definition try_block (env : Env) (file : File) : Outcome value * list IO :=
  match compress env file with
  | (Rejected err, io) => (Rejected err, io)
  | (Fulfilled compressed, io) =>
      let '(r, io') := submit env file compressed in (r, io ++ io')
  end.

(** [err.response?.data?.detail || err.message || 'Upload failed'] *)
Definition errorMessage (err : Thrown) : value :=
  or_else (or_else (get_opt (err_response_data err) "detail") (err_message err))
          (VStr "Upload failed").

(** [uploadFile(file)]: the value the promise resolves to, the hook state once
    it has, and the I/O performed. [None] is a [null] or [undefined]
    argument. *)
Definition uploadFile (env : Env) (file : option File) (st : HookState)
  : value * HookState * list IO :=
  match file with
  | None => (VNull, setError (VStr "No file selected") st, [])
  | Some f =>
      if negb (endsWith (name f) ".csv") && negb (endsWith (name f) ".CSV") then
        (VNull, setError (VStr "File must be a CSV file") st, [])
      else
        let st := setJobId VNull (setError VNull (setUploading true st)) in
        match try_block env f with
        | (Fulfilled newJobId, io) =>
            (newJobId, setUploading false (setJobId newJobId st), io)
        | (Rejected err, io) =>
            (VNull, setUploading false (setError (errorMessage err) st), io)
        end
  end.

Definition reset (st : HookState) : HookState :=
  setError VNull (setJobId VNull (setUploading false st)).

(** *** The wording of the specification, for comparison *)

Definition lower_ascii (c : ascii) : ascii :=
  let n := nat_of_ascii c in
  if (65 <=? n)%nat && (n <=? 90)%nat then ascii_of_nat (n + 32) else c.

Fixpoint lowercase (s : string) : string :=
  match s with
  | EmptyString => EmptyString
  | String c r => String (lower_ascii c) (lowercase r)
  end.

(** "its name ends in the accepted extension (case-insensitive, e.g.
    [.csv])" *)
Definition ends_with_extension_ci (s : string) : bool :=
  endsWith (lowercase s) ".csv".

(** *** Concrete collaborators *)

(** A stand-in codec for concrete runs: the gzip magic number in front of the
    data, stored as it is. *)
Definition stored_gzip (data : list byte) : Outcome (list byte) :=
  Fulfilled (Byte.x1f :: Byte.x8b :: data).

Definition stored_gunzip (blob : list byte) : option (list byte) :=
  match blob with
  | b1 :: b2 :: data =>
      if (Encoding.b2z b1 =? 0x1F) && (Encoding.b2z b2 =? 0x8B) then Some data else None
  | _ => None
  end.

(** A backend answering 2xx with [body]. *)
Definition backend (body : value) : Env :=
  mkEnv (fun _ => None) stored_gzip (fun _ _ => Fulfilled body).

(** fflate's contract: [gunzip] gives back what [gzip] was given. *)
Definition lossless (env : Env) (gunzip : list byte -> option (list byte)) : Prop :=
  forall data blob, gzip env data = Fulfilled blob -> gunzip blob = Some data.

Definition accepted (f : File) : bool :=
  endsWith (name f) ".csv" || endsWith (name f) ".CSV".


End Upload.

(* ================================================================== *)
(** ** Decoder states *)

Module DecoderStates.
Import Encoding.

(** Every code point the decoder can still complete from state [st] is a
    scalar value: with [r] continuation bytes to come, the first of them
    between the boundaries, the result lies between [lo] and [hi], an
    interval free of surrogates. *)
Definition completes_scalar (st : DecState) : Prop :=
  bytes_needed st = 0 \/
  let r := bytes_needed st - bytes_seen st in
  let lo := (code_point st * 64 + (lower_boundary st - 128)) * 64 ^ (r - 1) in
  let hi := (code_point st * 64 + (upper_boundary st - 128)) * 64 ^ (r - 1)
            + 64 ^ (r - 1) - 1 in
  bytes_needed st <> 0 /\ 1 <= r <= 3 /\
  0x80 <= lower_boundary st /\ upper_boundary st <= 0xBF /\
  0 <= lo /\ hi <= 0x10FFFF /\ (hi < 0xD800 \/ 0xDFFF < lo).

End DecoderStates.

(* ================================================================== *)
(** ** More vocabulary for streams *)

Module Frames.
Import JS WS.

(** A frame one of the four branches of [ws.onmessage] takes: it parsed, its
    [type] can be read, and the type is one of the four literals. *)
Definition known_frame (parsed : option value) : bool :=
  match parsed with
  | Some data =>
      match get data "type" with
      | Some ty =>
          is_str ty "log" || is_str ty "progress" || is_str ty "error"
          || is_str ty "complete"
      | None => false
      end
  | None => false
  end.

(** The parsed frames [ds], delivered in order on socket [id]. *)
Definition deliver (id : nat) (ds : list value) : list Event :=
  map (fun d => SockMessage id (Some d)) ds.

Definition has_type (ty : string) (data : value) : Prop :=
  get data "type" = Some (VStr ty).

(** A browser whose [WebSocket] constructor rejects every URL. *)
Definition rejects_all : value -> option string := fun _ => Some "invalid URL".

End Frames.

(* ================================================================== *)
(** ** UploadWidget: the handlers that feed the hooks *)

Module Widget.
Import JS Upload.

(** The widget's own state variable and the upload hook's state. *)
Record WidgetState := mkWidget {
  isDragging : bool;
  upload : HookState
}.

(** [files.find((f) => f.name.endsWith('.csv') || f.name.endsWith('.CSV'))] *)
Definition csvFile (files : list File) : option File :=
  List.find (fun f => endsWith (name f) ".csv" || endsWith (name f) ".CSV") files.

(** [handleDragOver] and [handleDragLeave] *)
Definition handleDragOver (ws : WidgetState) : WidgetState := mkWidget true (upload ws).
Definition handleDragLeave (ws : WidgetState) : WidgetState := mkWidget false (upload ws).

(** [handleDrop] for the dropped [files]: the state once [uploadFile] has
    settled, and the I/O performed. *)
Definition handleDrop (env : Env) (files : list File) (ws : WidgetState)
  : WidgetState * list IO :=
  match csvFile files with
  | Some f =>
      let '(_, st, io) := uploadFile env (Some f) (upload ws) in
      (mkWidget false st, io)
  | None => (mkWidget false (upload ws), [])
  end.

(** [handleFileSelect]: [e.target.files?.[0]], uploaded if there is one. *)
Definition handleFileSelect (env : Env) (files : list File) (ws : WidgetState)
  : WidgetState * list IO :=
  match files with
  | f :: _ =>
      let '(_, st, io) := uploadFile env (Some f) (upload ws) in
      (mkWidget (isDragging ws) st, io)
  | [] => (ws, [])
  end.

(** A server that rejects every post with [err]; reading and compressing
    succeed. *)
Definition failing (err : Thrown) : Env :=
  mkEnv (fun _ => None) stored_gzip (fun _ _ => Rejected err).

End Widget.

(* ================================================================== *)
(** ** Facts about the text codecs *)

Module EncodingProofs.
Import Encoding.

(** [lia] with division and remainder by constants. *)
Ltac dlia := Z.div_mod_to_equations; lia.

Ltac decoder_fields :=
  cbn [bytes_needed bytes_seen lower_boundary upper_boundary code_point].

Lemma b2z_range (b : byte) : 0 <= b2z b < 256.
Proof.
  unfold b2z. pose proof (Byte.to_N_bounded b). lia.
Qed.

Lemma b2z_z2b (z : Z) : 0 <= z < 256 -> b2z (z2b z) = z.
Proof.
  intros Hz. unfold b2z, z2b.
  destruct (Byte.of_N (Z.to_N z)) as [b|] eqn:E.
  - apply Byte.to_of_N in E. rewrite E. lia.
  - apply Byte.of_N_None_iff in E. lia.
Qed.

Lemma z2b_b2z (b : byte) : z2b (b2z b) = b.
Proof.
  unfold b2z, z2b. rewrite N2Z.id, Byte.of_to_N. reflexivity.
Qed.

(** Bits set by a left shift lie above those of a small operand, so [lor]
    adds. *)
Lemma lor_shiftl_low (hi lo n : Z) :
  0 <= n -> 0 <= lo < 2 ^ n -> Z.lor (Z.shiftl hi n) lo = hi * 2 ^ n + lo.
Proof.
  intros Hn Hlo.
  assert (Hdisj : Z.land (Z.shiftl hi n) lo = 0).
  { apply Z.bits_inj'. intros i Hi.
    rewrite Z.land_spec, Z.bits_0.
    destruct (Z.lt_ge_cases i n) as [Hlt|Hge].
    - rewrite Z.shiftl_spec_low by lia. reflexivity.
    - destruct (Z.eq_dec lo 0) as [->|Hnz].
      + rewrite Z.bits_0. apply andb_false_r.
      + rewrite (Z.bits_above_log2 lo i); [apply andb_false_r| lia |].
        apply Z.log2_lt_pow2; [lia|].
        apply Z.lt_le_trans with (2 ^ n); [lia|].
        apply Z.pow_le_mono_r; lia. }
  rewrite <- Z.lxor_lor by exact Hdisj.
  rewrite <- Z.add_nocarry_lxor by exact Hdisj.
  rewrite Z.shiftl_mul_pow2 by lia. reflexivity.
Qed.

Lemma lor_0x80 (x : Z) : 0 <= x < 64 -> Z.lor 0x80 x = 0x80 + x.
Proof.
  intros Hx. change 0x80 with (Z.shiftl 2 6) at 1.
  rewrite lor_shiftl_low by (simpl; lia). reflexivity.
Qed.

Lemma land_0x3F (x : Z) : Z.land x 0x3F = x mod 64.
Proof. change 0x3F with (Z.ones 6). rewrite Z.land_ones by lia. reflexivity. Qed.

Lemma land_0x1F (x : Z) : Z.land x 0x1F = x mod 32.
Proof. change 0x1F with (Z.ones 5). rewrite Z.land_ones by lia. reflexivity. Qed.

Lemma land_0xF (x : Z) : Z.land x 0xF = x mod 16.
Proof. change 0xF with (Z.ones 4). rewrite Z.land_ones by lia. reflexivity. Qed.

Lemma land_0x7 (x : Z) : Z.land x 0x7 = x mod 8.
Proof. change 0x7 with (Z.ones 3). rewrite Z.land_ones by lia. reflexivity. Qed.

Lemma land_0x3FF (x : Z) : Z.land x 0x3FF = x mod 1024.
Proof. change 0x3FF with (Z.ones 10). rewrite Z.land_ones by lia. reflexivity. Qed.

Lemma b2z_continuation (x : Z) : b2z (continuation x) = 0x80 + x mod 64.
Proof.
  unfold continuation. rewrite land_0x3F.
  pose proof (Z.mod_pos_bound x 64 ltac:(lia)).
  rewrite lor_0x80 by lia. apply b2z_z2b. lia.
Qed.


Lemma decoder_init_cons (b : byte) (rest : list byte) :
  utf8_decoder dec_init (b :: rest) =
  match lead (b2z b) with
  | LeadEmit cp => cp :: utf8_decoder dec_init rest
  | LeadStart st' => utf8_decoder st' rest
  | LeadError => REPLACEMENT :: utf8_decoder dec_init rest
  end.
Proof. reflexivity. Qed.

Lemma decoder_continuation_cons (st : DecState) (b : byte) (rest : list byte) :
  bytes_needed st <> 0 ->
  lower_boundary st <= b2z b <= upper_boundary st ->
  utf8_decoder st (b :: rest) =
  let cp := code_point st * 64 + b2z b mod 64 in
  if bytes_seen st + 1 =? bytes_needed st then cp :: utf8_decoder dec_init rest
  else utf8_decoder (mkDec cp (bytes_seen st + 1) (bytes_needed st) 0x80 0xBF) rest.
Proof.
  intros Hn Hb. cbn [utf8_decoder].
  destruct (Z.eqb_spec (bytes_needed st) 0) as [E|_]; [contradiction|].
  destruct (Z.ltb_spec (b2z b) (lower_boundary st)); [lia|].
  destruct (Z.ltb_spec (upper_boundary st) (b2z b)); [lia|].
  cbn [orb]. rewrite land_0x3F.
  pose proof (Z.mod_pos_bound (b2z b) 64 ltac:(lia)).
  rewrite (lor_shiftl_low (code_point st) (b2z b mod 64) 6) by (simpl; lia).
  reflexivity.
Qed.

Lemma lead_ascii (b : Z) : b <= 0x7F -> lead b = LeadEmit b.
Proof. intros H. unfold lead. destruct (Z.leb_spec b 0x7F); [reflexivity|lia]. Qed.

Lemma lead_two (b : Z) :
  0xC2 <= b <= 0xDF -> lead b = LeadStart (mkDec (b mod 32) 0 1 0x80 0xBF).
Proof.
  intros H. unfold lead. rewrite land_0x1F.
  destruct (Z.leb_spec b 0x7F); [lia|].
  destruct (Z.leb_spec 0xC2 b); [|lia].
  destruct (Z.leb_spec b 0xDF); [|lia]. reflexivity.
Qed.

Lemma lead_three (b : Z) :
  0xE0 <= b <= 0xEF ->
  lead b = LeadStart (mkDec (b mod 16) 0 2
                            (if b =? 0xE0 then 0xA0 else 0x80)
                            (if b =? 0xED then 0x9F else 0xBF)).
Proof.
  intros H. unfold lead. rewrite land_0xF.
  destruct (Z.leb_spec b 0x7F); [lia|].
  destruct (Z.leb_spec 0xC2 b); [|lia].
  destruct (Z.leb_spec b 0xDF); [lia|]. cbn [andb].
  destruct (Z.leb_spec 0xE0 b); [|lia].
  destruct (Z.leb_spec b 0xEF); [|lia]. reflexivity.
Qed.

Lemma lead_four (b : Z) :
  0xF0 <= b <= 0xF4 ->
  lead b = LeadStart (mkDec (b mod 8) 0 3
                            (if b =? 0xF0 then 0x90 else 0x80)
                            (if b =? 0xF4 then 0x8F else 0xBF)).
Proof.
  intros H. unfold lead. rewrite land_0x7.
  destruct (Z.leb_spec b 0x7F); [lia|].
  destruct (Z.leb_spec 0xC2 b); [|lia].
  destruct (Z.leb_spec b 0xDF); [lia|]. cbn [andb].
  destruct (Z.leb_spec 0xE0 b); [|lia].
  destruct (Z.leb_spec b 0xEF); [lia|]. cbn [andb].
  destruct (Z.leb_spec 0xF0 b); [|lia].
  destruct (Z.leb_spec b 0xF4); [|lia]. reflexivity.
Qed.

Lemma shiftr_6 (x : Z) : Z.shiftr x 6 = x / 64.
Proof. rewrite Z.shiftr_div_pow2 by lia. reflexivity. Qed.
Lemma shiftr_12 (x : Z) : Z.shiftr x 12 = x / 4096.
Proof. rewrite Z.shiftr_div_pow2 by lia. reflexivity. Qed.
Lemma shiftr_18 (x : Z) : Z.shiftr x 18 = x / 262144.
Proof. rewrite Z.shiftr_div_pow2 by lia. reflexivity. Qed.
Lemma shiftr_10 (x : Z) : Z.shiftr x 10 = x / 1024.
Proof. rewrite Z.shiftr_div_pow2 by lia. reflexivity. Qed.

Lemma decoder_continuation_last (st : DecState) (b : byte) (rest : list byte) :
  bytes_seen st + 1 = bytes_needed st ->
  bytes_needed st <> 0 ->
  lower_boundary st <= b2z b <= upper_boundary st ->
  utf8_decoder st (b :: rest) =
  (code_point st * 64 + b2z b mod 64) :: utf8_decoder dec_init rest.
Proof.
  intros Hlast Hn Hb. rewrite decoder_continuation_cons by assumption.
  cbv zeta. rewrite (proj2 (Z.eqb_eq _ _) Hlast). reflexivity.
Qed.

Lemma decoder_continuation_more (st : DecState) (b : byte) (rest : list byte) :
  bytes_seen st + 1 <> bytes_needed st ->
  bytes_needed st <> 0 ->
  lower_boundary st <= b2z b <= upper_boundary st ->
  utf8_decoder st (b :: rest) =
  utf8_decoder (mkDec (code_point st * 64 + b2z b mod 64) (bytes_seen st + 1)
                      (bytes_needed st) 0x80 0xBF) rest.
Proof.
  intros Hmore Hn Hb. rewrite decoder_continuation_cons by assumption.
  cbv zeta. rewrite (proj2 (Z.eqb_neq _ _) Hmore). reflexivity.
Qed.

(** The decoder reads back what the encoder wrote for a scalar value. *)
Lemma decoder_encode_cp (cp : Z) (rest : list byte) :
  is_scalar cp ->
  utf8_decoder dec_init (utf8_encode_cp cp ++ rest) = cp :: utf8_decoder dec_init rest.
Proof.
  intros [Hr Hs]. unfold utf8_encode_cp.
  destruct (Z.leb_spec cp 0x7F) as [H1|H1];
    [|destruct (Z.leb_spec cp 0x7FF) as [H2|H2];
      [|destruct (Z.leb_spec cp 0xFFFF) as [H3|H3]]];
    cbn [app]; rewrite ?shiftr_6, ?shiftr_12, ?shiftr_18;
    rewrite decoder_init_cons, b2z_z2b by dlia.
  - rewrite lead_ascii by lia. reflexivity.
  - rewrite lead_two by dlia.
    rewrite decoder_continuation_last; decoder_fields;
      rewrite ?b2z_continuation; try dlia.
    f_equal. dlia.
  - rewrite lead_three by dlia.
    rewrite decoder_continuation_more; decoder_fields;
      rewrite ?b2z_continuation; try dlia.
    2:{ destruct (Z.eqb_spec (cp / 4096 + 224) 224);
        destruct (Z.eqb_spec (cp / 4096 + 224) 237); dlia. }
    rewrite decoder_continuation_last; decoder_fields;
      rewrite ?b2z_continuation; try dlia.
    f_equal. dlia.
  - rewrite lead_four by dlia.
    rewrite decoder_continuation_more; decoder_fields;
      rewrite ?b2z_continuation; try dlia.
    2:{ destruct (Z.eqb_spec (cp / 262144 + 240) 240);
        destruct (Z.eqb_spec (cp / 262144 + 240) 244); dlia. }
    rewrite decoder_continuation_more; decoder_fields;
      rewrite ?b2z_continuation; try dlia.
    rewrite decoder_continuation_last; decoder_fields;
      rewrite ?b2z_continuation; try dlia.
    f_equal. dlia.
Qed.

Lemma decoder_encode (cps : list Z) :
  Forall is_scalar cps -> utf8_decoder dec_init (utf8_encode cps) = cps.
Proof.
  induction 1 as [|cp cps Hcp _ IH]; [reflexivity|].
  unfold utf8_encode in *. cbn [flat_map].
  rewrite decoder_encode_cp by assumption. now rewrite IH.
Qed.

Lemma scalar_values_units (cp : Z) (rest : DOMString) :
  is_scalar cp ->
  scalar_values (utf16_units cp ++ rest) = cp :: scalar_values rest.
Proof.
  intros [Hr Hs]. unfold utf16_units.
  destruct (Z.ltb_spec cp 0x10000) as [Hlow|Hhigh]; cbn [app scalar_values].
  - unfold is_lead_surrogate, is_trail_surrogate.
    destruct (Z.leb_spec 0xD800 cp), (Z.leb_spec cp 0xDBFF),
             (Z.leb_spec 0xDC00 cp), (Z.leb_spec cp 0xDFFF);
      cbn [andb]; try reflexivity; lia.
  - rewrite shiftr_10, land_0x3FF.
    unfold is_lead_surrogate, is_trail_surrogate.
    destruct (Z.leb_spec 0xD800 (0xD800 + (cp - 0x10000) / 1024)); [|dlia].
    destruct (Z.leb_spec (0xD800 + (cp - 0x10000) / 1024) 0xDBFF); [|dlia].
    destruct (Z.leb_spec 0xDC00 (0xDC00 + (cp - 0x10000) mod 1024)); [|dlia].
    destruct (Z.leb_spec (0xDC00 + (cp - 0x10000) mod 1024) 0xDFFF); [|dlia].
    cbn [andb]. rewrite Z.shiftl_mul_pow2 by lia. f_equal.
    change (2 ^ 10) with 1024. dlia.
Qed.

Lemma scalar_values_string (cps : list Z) :
  Forall is_scalar cps -> scalar_values (flat_map utf16_units cps) = cps.
Proof.
  induction 1 as [|cp cps Hcp _ IH]; [reflexivity|].
  cbn [flat_map]. rewrite scalar_values_units by assumption. now rewrite IH.
Qed.

(** Reading well-formed UTF-8 without a byte-order mark as text and encoding
    the text again gives the bytes back. *)
Lemma encode_text_wellformed (bs : list byte) (cps : list Z) :
  Forall is_scalar cps ->
  bs = utf8_encode cps ->
  strip_bom bs = bs ->
  TextEncoder_encode (text bs) = bs.
Proof.
  intros Hcps -> Hbom. unfold TextEncoder_encode, text, utf8_decode.
  rewrite Hbom, decoder_encode, scalar_values_string by assumption.
  reflexivity.
Qed.

End EncodingProofs.

(* ================================================================== *)
(** ** Facts about useWebSocket *)

Module WSProofs.
Import JS WS.

Ltac world_fields :=
  cbn [logs progress total percentage status error wsRef reconnectTimeoutRef
       statusRef shouldReconnectRef cleanupRegistered sockets timers now].

Ltac setters :=
  unfold sync_statusRef, setLogs, setProgress, setTotal, setPercentage, setStatus,
    setError, set_wsRef, set_reconnectTimeoutRef, set_statusRef,
    set_shouldReconnectRef, set_cleanupRegistered, set_sockets, set_timers, set_now;
  world_fields.

(** Automation for the stream invariant: lookups in updated lists, facts
    the invariant gives for the entries at hand, and case splits on flags. *)
Ltac lookups :=
  repeat match goal with
  | H : <[_ := _]> _ !! _ = Some _ |- _ =>
      apply list_lookup_insert_Some in H; destruct H as [(? & ? & ?) | (? & H)]
  | H : (_ ++ [_]) !! _ = Some _ |- _ =>
      apply lookup_snoc_Some in H; destruct H as [(? & H) | (? & ?)]
  | H : [_] !! _ = Some _ |- _ =>
      apply list_lookup_singleton_Some in H; destruct H as [? ?]
  | H : [] !! _ = Some _ |- _ => discriminate H
  end; simplify_eq/=.

Ltac learn H :=
  let T := type of H in
  lazymatch goal with
  | _ : T |- _ => fail
  | _ => pose proof H
  end.

Ltac facts :=
  repeat match goal with
  | H : ?l !! ?i = Some _ |- _ => learn (lookup_lt_Some _ _ _ H)
  | Hinv : (forall i s, ?l !! i = Some s -> close_fired s = false -> S i = length ?l),
    H : ?l !! ?i = Some ?s, Hc : close_fired ?s = false |- _ => learn (Hinv _ _ H Hc)
  | Hinv : (forall t tm, ?l !! t = Some tm -> pending tm = true -> S t = length ?l),
    H : ?l !! ?i = Some ?s, Hc : pending ?s = true |- _ => learn (Hinv _ _ H Hc)
  | Hinv : (forall i s, ?l !! i = Some s -> close_fired s = true -> readyState s = CLOSED),
    H : ?l !! ?i = Some ?s, Hc : close_fired ?s = true |- _ => learn (Hinv _ _ H Hc)
  | Hinv : (forall t tm, ?l !! t = Some tm -> pending tm = false),
    H : ?l !! ?i = Some ?s |- _ => learn (Hinv _ _ H)
  | Hinv : (forall i s, ?l !! i = Some s -> readyState s = CLOSED),
    H : ?l !! ?i = Some ?s |- _ => learn (Hinv _ _ H)
  end;
  rewrite ?length_insert, ?length_app; cbn [length].

Ltac flags :=
  repeat match goal with
  | H : _ && _ = true |- _ => apply andb_true_iff in H; destruct H
  | H : negb _ = true |- _ => apply negb_true_iff in H
  | H : _ && _ = false |- _ => apply andb_false_iff in H; destruct H
  | H : negb _ = false |- _ => apply negb_false_iff in H
  | H : Status_eqb ?s _ = _ |- _ => destruct s; try discriminate H; clear H
  end.

Ltac premises :=
  repeat match goal with
  | H : ?a = ?a -> _ |- _ => specialize (H eq_refl)
  | H : ?P -> _, H' : ?P |- _ =>
      lazymatch type of P with Prop => specialize (H H') end
  | H : _ /\ _ |- _ => destruct H
  end.

Ltac finish := solve [ eauto | congruence | lia | exfalso; eauto ].

Ltac split_flags :=
  repeat match goal with
  | H : ?l !! _ = Some ?s |- _ =>
      lazymatch type of s with
      | Socket =>
          lazymatch goal with
          | _ : close_fired s = _ |- _ => fail
          | _ => destruct (close_fired s) eqn:?
          end
      | Timer =>
          lazymatch goal with
          | _ : pending s = _ |- _ => fail
          | _ => destruct (pending s) eqn:?
          end
      end
  end.

Ltac inv_solve :=
  unfold all_closed, no_pending_timer in *; cbn in *;
  split; cbn; unfold all_closed, no_pending_timer; cbn; intros;
  lookups; flags; premises; facts;
  try first [ finish
            | split; intros; lookups; premises; facts;
              first [ finish | split_flags; facts; finish ]
            | split_flags; facts; finish ].

Lemma lookup_snoc {A} (l : list A) (x : A) : (l ++ [x]) !! length l = Some x.
Proof. rewrite lookup_app_r by lia. now rewrite Nat.sub_diag. Qed.

Lemma insert_snoc {A} (l : list A) (x y : A) :
  <[length l := y]> (l ++ [x]) = l ++ [y].
Proof. rewrite insert_app_r_alt by lia. now rewrite Nat.sub_diag. Qed.

Lemma nonterminal_guard (s : Status) :
  s <> S_complete -> s <> S_error ->
  negb (Status_eqb s S_complete) && negb (Status_eqb s S_error) = true.
Proof. destruct s; intros; try reflexivity; contradiction. Qed.

(** *** What [ws.close()] and [clearTimeout] leave alone *)

Lemma ws_close_frame (id : nat) (w : World) :
  logs (ws_close id w) = logs w /\ progress (ws_close id w) = progress w /\
  total (ws_close id w) = total w /\ percentage (ws_close id w) = percentage w /\
  status (ws_close id w) = status w /\ error (ws_close id w) = error w /\
  shouldReconnectRef (ws_close id w) = shouldReconnectRef w /\
  timers (ws_close id w) = timers w.
Proof.
  unfold ws_close. destruct (sockets w !! id) as [s|]; [|tauto].
  destruct (readyState s); cbn; tauto.
Qed.

Lemma ws_close_not_open (id : nat) (w : World) : is_open id (ws_close id w) = false.
Proof.
  unfold ws_close, is_open, readyState_of.
  destruct (sockets w !! id) as [s|] eqn:E.
  - destruct (readyState s) eqn:R; setters;
      rewrite ?list_lookup_insert_eq by (eapply lookup_lt_Some; eassumption);
      rewrite ?E; cbn; rewrite ?R; reflexivity.
  - rewrite E. reflexivity.
Qed.

Lemma close_current_if_open_frame (w : World) :
  logs (close_current_if_open w) = logs w /\
  progress (close_current_if_open w) = progress w /\
  total (close_current_if_open w) = total w /\
  percentage (close_current_if_open w) = percentage w /\
  status (close_current_if_open w) = status w /\
  error (close_current_if_open w) = error w /\
  shouldReconnectRef (close_current_if_open w) = shouldReconnectRef w /\
  timers (close_current_if_open w) = timers w.
Proof.
  unfold close_current_if_open. destruct (wsRef w) as [cur|]; [|tauto].
  destruct (is_open cur w); [apply ws_close_frame|tauto].
Qed.

Lemma close_current_logs (w : World) : logs (close_current_if_open w) = logs w.
Proof. apply close_current_if_open_frame. Qed.

Lemma close_current_total (w : World) : total (close_current_if_open w) = total w.
Proof. apply close_current_if_open_frame. Qed.

Lemma close_current_percentage (w : World) :
  percentage (close_current_if_open w) = percentage w.
Proof. apply close_current_if_open_frame. Qed.

Lemma close_current_flag (w : World) :
  shouldReconnectRef (close_current_if_open w) = shouldReconnectRef w.
Proof. apply close_current_if_open_frame. Qed.

Lemma clearTimeout_frame (t : nat) (w : World) :
  wsRef (clearTimeout t w) = wsRef w /\ sockets (clearTimeout t w) = sockets w /\
  error (clearTimeout t w) = error w.
Proof. unfold clearTimeout. destruct (timers w !! t); cbn; tauto. Qed.

(** *** The branches of [ws.onmessage] *)

Lemma onmessage_progress (data : value) (w : World) :
  get data "type" = Some (VStr "progress") ->
  onmessage (Some data) w =
  setLogs (fun prev => prev ++
             [L_progress (get_opt data "message") (get_opt data "processed")
                         (get_opt data "total") (get_opt data "percentage") (now w)])
    (setPercentage (or_else (get_opt data "percentage") (num 0))
       (setTotal (or_else (get_opt data "total") (num 0))
          (setProgress (or_else (get_opt data "processed") (num 0)) w))).
Proof. intros H. unfold onmessage. rewrite H. reflexivity. Qed.

Lemma onmessage_complete (data : value) (w : World) :
  get data "type" = Some (VStr "complete") ->
  onmessage (Some data) w =
  close_current_if_open
    (setLogs (fun prev => prev ++
                [L_complete (get_opt data "message") (get_opt data "processed")
                            (or_else (get_opt data "total") (get_opt data "processed"))
                            (now w)])
       (setPercentage (num 100)
          (setTotal (or_else (or_else (get_opt data "total") (get_opt data "processed"))
                             (num 0))
             (setProgress (or_else (get_opt data "processed") (num 0))
                (setStatus S_complete (set_shouldReconnectRef false w)))))).
Proof. intros H. unfold onmessage. rewrite H. reflexivity. Qed.

Lemma onmessage_error (data : value) (w : World) :
  get data "type" = Some (VStr "error") ->
  onmessage (Some data) w =
  close_current_if_open
    (setLogs (fun prev => prev ++
                [L_error (get_opt data "message") (get_opt data "detail") (now w)])
       (setError (get_opt data "message")
          (setStatus S_error (set_shouldReconnectRef false w)))).
Proof. intros H. unfold onmessage. rewrite H. reflexivity. Qed.

(** A terminal event turns the flag off. *)
Lemma terminal_event_clears_flag (data : value) (w : World) :
  get data "type" = Some (VStr "complete") \/ get data "type" = Some (VStr "error") ->
  shouldReconnectRef (onmessage (Some data) w) = false.
Proof.
  intros [H|H]; [rewrite onmessage_complete by assumption
                |rewrite onmessage_error by assumption];
    now rewrite close_current_flag.
Qed.

(** *** Handlers once the flag is off *)

Section Handlers.

Variable url_error : value -> option string.

Local Abbreviation step := (WS.step url_error).
Local Abbreviation run := (WS.run url_error).

(** With the flag off, a close event schedules nothing, a timer callback
    connects nothing, and no socket is created. *)
Lemma stopped_stream_stays_stopped (job : value) (w : World) :
  shouldReconnectRef w = false ->
  timers (onclose job w) = timers w /\
  sockets (onclose job w) = sockets w /\
  reconnect_callback url_error job w = w /\
  connect url_error job w = w.
Proof.
  intros Hflag. unfold onclose, reconnect_callback, connect. setters.
  rewrite Hflag. repeat split.
Qed.

(** Whatever the status was, also [complete] or [error], the close handler
    replaces it with [disconnected]. *)
Lemma onclose_overwrites_status (job : value) (w : World) :
  status (onclose job w) = S_disconnected.
Proof.
  unfold onclose. setters.
  destruct (shouldReconnectRef w
            && negb (Status_eqb (statusRef w) S_complete)
            && negb (Status_eqb (statusRef w) S_error)); reflexivity.
Qed.

(** *** Progress and Complete events *)

Lemma progress_keeps_open (id : nat) (data : value) (w : World) :
  get data "type" = Some (VStr "progress") ->
  is_open id w = true ->
  is_open id (step w (SockMessage id (Some data))) = true.
Proof.
  intros Hty Hopen. cbn [WS.step]. rewrite Hopen, onmessage_progress by assumption.
  exact Hopen.
Qed.

Lemma progress_events_keep_open (id : nat) (ps : list value) (w : World) :
  Forall (fun p => get p "type" = Some (VStr "progress")) ps ->
  is_open id w = true ->
  is_open id (run w (progress_events id ps)) = true.
Proof.
  intros Hps. revert w. induction Hps as [|p ps Hp _ IH]; intros w Hopen.
  - exact Hopen.
  - cbn [progress_events map WS.run fold_left]. apply IH.
    apply progress_keeps_open; assumption.
Qed.

(** C5. After any sequence of Progress events on an open socket followed by
    a Complete event, the stored percentage is exactly 100, whatever the
    Progress events carried and whatever else the Complete frame holds. *)
Theorem complete_sets_percentage_100
    (id : nat) (ps : list value) (c : value) (w : World) :
  is_open id w = true ->
  Forall (fun p => get p "type" = Some (VStr "progress")) ps ->
  get c "type" = Some (VStr "complete") ->
  percentage (run w (progress_events id ps ++ [SockMessage id (Some c)])) = num 100.
Proof.
  intros Hopen Hps Hc. unfold WS.run. rewrite fold_left_app.
  fold (run w (progress_events id ps)).
  pose proof (progress_events_keep_open id ps w Hps Hopen) as Hopen'.
  cbn [fold_left WS.step]. rewrite Hopen', onmessage_complete by assumption.
  rewrite close_current_percentage. reflexivity.
Qed.

(** C2, as the code has it. A Progress event stores [percentage || 0]: the
    carried value itself when it is truthy, 0 otherwise. Nothing is
    clamped. *)
Theorem progress_stores_percentage_unclamped (id : nat) (p : value) (w : World) :
  is_open id w = true ->
  get p "type" = Some (VStr "progress") ->
  percentage (step w (SockMessage id (Some p)))
  = or_else (get_opt p "percentage") (num 0).
Proof.
  intros Hopen Hp. cbn [WS.step]. rewrite Hopen, onmessage_progress by assumption.
  reflexivity.
Qed.

(** C10, as the code has it. For a Complete event whose [total] is falsy the
    stored total is [processed || 0], and the appended entry records
    [processed] itself, also when that is falsy; the two agree when
    [processed] is truthy. *)
Theorem complete_total_fallback (id : nat) (c : value) (w : World) :
  is_open id w = true ->
  get c "type" = Some (VStr "complete") ->
  truthy (get_opt c "total") = false ->
  let w' := step w (SockMessage id (Some c)) in
  total w' = or_else (get_opt c "processed") (num 0) /\
  logs w' = logs w ++ [L_complete (get_opt c "message") (get_opt c "processed")
                                  (get_opt c "processed") (now w)] /\
  (truthy (get_opt c "processed") = true -> total w' = get_opt c "processed").
Proof.
  intros Hopen Hc Htot. cbn [WS.step]. rewrite Hopen, onmessage_complete by assumption.
  assert (Hfb : or_else (get_opt c "total") (get_opt c "processed")
                 = get_opt c "processed")
    by (unfold or_else; now rewrite Htot).
  cbv zeta. rewrite close_current_total, close_current_logs, Hfb.
  cbn [total logs setLogs setPercentage setTotal].
  repeat split. intros Hproc. unfold or_else. now rewrite Hproc.
Qed.

(** *** Reconnection *)

(** The close event of the connected socket: status [disconnected] and one
    new timer, due after the delay. *)
Lemma close_when_connected (job : value) (id : nat) (w : World) :
  Connected job id w ->
  step w (SockClose id) =
  mkWorld (logs w) (progress w) (total w) (percentage w) S_disconnected (error w)
          (wsRef w) (Some (length (timers w))) (statusRef w) true
          (cleanupRegistered w)
          (<[id := mkSocket job CLOSED true]> (sockets w))
          (timers w ++ [mkTimer (now w + reconnectDelay) job true])
          (now w).
Proof.
  intros (Hs & Hst & Hflag & Hc & He). cbn [WS.step]. rewrite Hs.
  cbn [close_fired sock_job]. unfold onclose.
  cbn [shouldReconnectRef statusRef setStatus set_sockets].
  rewrite Hflag. cbn [andb]. rewrite nonterminal_guard by assumption.
  unfold schedule_reconnect. setters. now rewrite Hflag.
Qed.

Lemma timer_not_before_delay (w : World) (t : nat) (tm : Timer) (d : Z) :
  timers w !! t = Some tm ->
  now w + Z.max 0 d < due tm ->
  step (step w (Tick d)) (TimerFire t) = step w (Tick d).
Proof.
  intros Ht Hd. cbn [WS.step]. setters. rewrite Ht.
  destruct (Z.leb_spec (due tm) (now w + Z.max 0 d)); [lia|].
  now rewrite andb_false_r.
Qed.

(** A pending, due timer of a stream that may reconnect runs [connect]:
    status [connecting], error cleared, one new connecting socket. *)
Lemma timer_fires_when_due (w : World) (t : nat) (job : value) (at_ : Z) :
  timers w !! t = Some (mkTimer at_ job true) ->
  at_ <= now w ->
  shouldReconnectRef w = true ->
  url_error job = None ->
  step w (TimerFire t) =
  mkWorld (logs w) (progress w) (total w) (percentage w) S_connecting VNull
          (Some (length (sockets w))) (reconnectTimeoutRef w) (statusRef w) true
          (cleanupRegistered w)
          (sockets w ++ [mkSocket job CONNECTING false])
          (<[t := mkTimer at_ job false]> (timers w))
          (now w).
Proof.
  intros Ht Hdue Hflag Hurl. cbn [WS.step]. rewrite Ht.
  cbn [pending due timer_job andb].
  destruct (Z.leb_spec at_ (now w)); [|lia].
  unfold reconnect_callback, connect. setters. rewrite Hflag. cbn [negb].
  rewrite Hurl. setters. reflexivity.
Qed.

(** The open event of a connecting socket of a stream that may reconnect. *)
Lemma open_when_connecting (w : World) (id : nat) (job : value) :
  sockets w !! id = Some (mkSocket job CONNECTING false) ->
  shouldReconnectRef w = true ->
  step w (SockOpen id) =
  mkWorld (logs w ++ [L_system "Connected to server" (now w)])
          (progress w) (total w) (percentage w) S_connected (error w)
          (wsRef w) (reconnectTimeoutRef w) (statusRef w) true
          (cleanupRegistered w)
          (<[id := mkSocket job OPEN false]> (sockets w))
          (timers w) (now w).
Proof.
  intros Hs Hflag. cbn [WS.step]. rewrite Hs. cbn [readyState].
  unfold onopen, set_readyState. setters. rewrite Hflag.
  cbn [negb sock_job close_fired]. reflexivity.
Qed.

(** One drop of the connection and the reconnection that follows leave the
    stream connected again, on a new socket. *)
Lemma drop_and_reconnect_connected (job : value) (id : nat) (w : World) :
  Connected job id w ->
  url_error job = None ->
  let w' := run w (drop_and_reconnect id w) in
  Connected job (length (sockets w)) w' /\
  length (sockets w') = S (length (sockets w)) /\
  length (timers w') = S (length (timers w)).
Proof.
  intros HC Hurl. pose proof HC as (Hs & Hst & Hflag & Hc & He).
  unfold drop_and_reconnect. cbn [WS.run fold_left].
  rewrite (close_when_connected job) by assumption.
  set (w1 := mkWorld _ _ _ _ _ _ _ _ _ _ _ _ _ _).
  change (step w1 Commit) with (sync_statusRef w1).
  change (step (sync_statusRef w1) (Tick reconnectDelay))
    with (set_now (now w1 + Z.max 0 reconnectDelay) (sync_statusRef w1)).
  rewrite (timer_fires_when_due _ _ job (now w + reconnectDelay));
    subst w1; setters;
    [ | apply lookup_snoc | unfold reconnectDelay; lia | reflexivity | assumption ].
  set (w2 := mkWorld _ _ _ _ _ _ _ _ _ _ _ _ _ _).
  change (step w2 Commit) with (sync_statusRef w2).
  rewrite (open_when_connecting _ _ job);
    subst w2; setters;
    [ | rewrite <- (length_insert (sockets w) id (mkSocket job CLOSED true));
        apply lookup_snoc
      | reflexivity ].
  cbn [WS.step]. setters. unfold Connected. world_fields.
  set (l := <[id := mkSocket job CLOSED true]> (sockets w)).
  assert (Hl : length l = length (sockets w)) by apply length_insert.
  rewrite <- Hl, !insert_snoc, lookup_snoc, !length_app. cbn [length].
  repeat split; try discriminate; lia.
Qed.

Lemma retries_connected (job : value) (n : nat) :
  url_error job = None ->
  forall (id : nat) (w : World),
    Connected job id w ->
    (exists id', Connected job id' (retries url_error n id w)) /\
    length (sockets (retries url_error n id w)) = (length (sockets w) + n)%nat.
Proof.
  intros Hurl. induction n as [|n IH]; intros id w HC.
  - cbn [retries]. split; [now exists id|lia].
  - cbn [retries].
    destruct (drop_and_reconnect_connected job id w HC Hurl) as (HC' & Hlen & _).
    destruct (IH _ _ HC') as (Hex & Hn). split; [exact Hex|].
    rewrite Hn, Hlen. lia.
Qed.

(** The reconnection policy on a connected stream: a close event gives status
    [disconnected] and exactly one timer, due 3000 ms later, and no socket
    yet; it is not handled twice; the timer is inert before it is due and
    reconnects once due; [n] drops give [n] reconnections. *)
Lemma reconnect_when_connected (job : value) (id : nat) (w : World) :
  Connected job id w ->
  url_error job = None ->
  let t := length (timers w) in
  let w1 := step w (SockClose id) in
  status w1 = S_disconnected /\
  timers w1 = timers w ++ [mkTimer (now w + 3000) job true] /\
  reconnectTimeoutRef w1 = Some t /\
  sockets w1 = <[id := mkSocket job CLOSED true]> (sockets w) /\
  step w1 (SockClose id) = w1 /\
  (forall d, d < 3000 -> step (step w1 (Tick d)) (TimerFire t) = step w1 (Tick d)) /\
  (forall d, 3000 <= d ->
     let w2 := run w1 [Tick d; TimerFire t] in
     status w2 = S_connecting /\
     sockets w2 = sockets w1 ++ [mkSocket job CONNECTING false] /\
     timers w2 = timers w ++ [mkTimer (now w + 3000) job false]) /\
  (forall n,
     (exists id', Connected job id' (retries url_error n id w)) /\
     length (sockets (retries url_error n id w)) = (length (sockets w) + n)%nat).
Proof.
  intros HC Hurl. pose proof HC as (Hs & Hst & Hflag & Hc & He).
  cbv zeta. rewrite (close_when_connected job) by assumption.
  set (w1 := mkWorld _ _ _ _ _ _ _ _ _ _ _ _ _ _).
  assert (Ht : timers w1 !! length (timers w)
               = Some (mkTimer (now w + reconnectDelay) job true))
    by apply lookup_snoc.
  split; [reflexivity|]. split; [reflexivity|]. split; [reflexivity|].
  split; [reflexivity|]. split; [|split; [|split]].
  - cbn [WS.step]. subst w1. world_fields.
    rewrite list_lookup_insert_eq by (eapply lookup_lt_Some; eassumption).
    reflexivity.
  - intros d Hd. apply (timer_not_before_delay _ _ _ _ Ht).
    subst w1. cbn [due]. world_fields. unfold reconnectDelay. lia.
  - intros d Hd. cbn [WS.run fold_left].
    change (step w1 (Tick d)) with (set_now (now w1 + Z.max 0 d) w1).
    rewrite (timer_fires_when_due _ _ job (now w + reconnectDelay));
      subst w1; setters;
      [ | exact Ht | unfold reconnectDelay; lia | reflexivity | assumption ].
    rewrite insert_snoc. repeat split.
  - intros n. exact (retries_connected job n Hurl id w HC).
Qed.

(** *** The invariant of a stream *)

Lemma commit_inv (job : value) (w : World) : StreamInv url_error job w -> StreamInv url_error job (step w Commit).
Proof.
  intros []. destruct w as [lg pr tot pc st er ws rt sr flag reg sk tm clock].
  inv_solve.
Qed.

Lemma tick_inv (job : value) (w : World) d : StreamInv url_error job w -> StreamInv url_error job (step w (Tick d)).
Proof.
  intros []. destruct w as [lg pr tot pc st er ws rt sr flag reg sk tm clock].
  inv_solve.
Qed.

Lemma sockclose_inv (job : value) (w : World) id : StreamInv url_error job w -> StreamInv url_error job (step w (SockClose id)).
Proof.
  intros [].
  destruct w as [lg pr tot pc st er ws rt sr flag reg sk tm clock].
  cbn in *. destruct (sk !! id) as [s|] eqn:Hs; [|inv_solve].
  destruct (close_fired s) eqn:Hf; [inv_solve|].
  unfold onclose. cbn.
  destruct (flag && negb (Status_eqb sr S_complete) && negb (Status_eqb sr S_error)) eqn:G.
  - unfold schedule_reconnect; cbn. inv_solve.
  - inv_solve.
Qed.

Lemma sockerror_inv (job : value) (w : World) id : StreamInv url_error job w -> StreamInv url_error job (step w (SockError id)).
Proof.
  intros [].
  destruct w as [lg pr tot pc st er ws rt sr flag reg sk tm clock].
  cbn in *. destruct (sk !! id) as [s|] eqn:Hs; [|inv_solve].
  destruct (close_fired s) eqn:Hf; [inv_solve|].
  unfold onerror. cbn. inv_solve.
Qed.

Lemma timerfire_inv (job : value) (w : World) t : StreamInv url_error job w -> StreamInv url_error job (step w (TimerFire t)).
Proof.
  intros [].
  destruct w as [lg pr tot pc st er ws rt sr flag reg sk tm clock].
  cbn in *. destruct (tm !! t) as [tmr|] eqn:Ht; [|inv_solve].
  destruct (pending tmr && (due tmr <=? clock)) eqn:G; [|inv_solve].
  apply andb_true_iff in G as [Hp _].
  unfold reconnect_callback, connect. cbn.
  destruct flag; cbn; [|inv_solve].
  rewrite (inv_timer_job0 _ _ Ht), (inv_timer_url0 _ _ Ht). cbn.
  inv_solve.
Qed.

Lemma ws_close_inv (job : value) (w : World) id : StreamInv url_error job w -> StreamInv url_error job (ws_close id w).
Proof.
  intros [].
  destruct w as [lg pr tot pc st er ws rt sr flag reg sk tm clock].
  unfold ws_close. cbn in *. destruct (sk !! id) as [s|] eqn:Hs; [|inv_solve].
  destruct (readyState s) eqn:Hr; inv_solve.
Qed.

Lemma close_current_inv (job : value) (w : World) : StreamInv url_error job w -> StreamInv url_error job (close_current_if_open w).
Proof.
  intros H. unfold close_current_if_open.
  destruct (wsRef w) as [cur|]; [|exact H].
  destruct (is_open cur w); [now apply ws_close_inv|exact H].
Qed.

Lemma sockopen_inv (job : value) (w : World) id : StreamInv url_error job w -> StreamInv url_error job (step w (SockOpen id)).
Proof.
  intros Hinv. cbn [WS.step]. destruct (sockets w !! id) as [s|] eqn:Hs; [|exact Hinv].
  destruct (readyState s) eqn:Hr; try exact Hinv.
  unfold onopen.
  match goal with |- context [negb ?b] => destruct b eqn:Hflag end; cbn [negb];
    [|apply ws_close_inv];
    destruct Hinv; destruct w as [lg pr tot pc st er ws rt sr flag reg sk tm clock];
    inv_solve.
Qed.

Lemma sockmessage_inv (job : value) (w : World) id parsed :
  StreamInv url_error job w -> StreamInv url_error job (step w (SockMessage id parsed)).
Proof.
  intros Hinv. cbn [WS.step]. destruct (is_open id w); [|exact Hinv].
  unfold onmessage. destruct parsed as [data|]; [|exact Hinv].
  destruct (get data "type") as [ty|]; [|exact Hinv].
  destruct (is_str ty "log");
    [|destruct (is_str ty "progress");
      [|destruct (is_str ty "error"); [|destruct (is_str ty "complete")]]];
    try apply close_current_inv; try exact Hinv;
    destruct Hinv; destruct w as [lg pr tot pc st er ws rt sr flag reg sk tm clock];
    inv_solve.
Qed.

Lemma step_inv (job : value) (w : World) (e : Event) :
  stream_event e = true -> StreamInv url_error job w -> StreamInv url_error job (step w e).
Proof.
  destruct e; try discriminate; intros _.
  - apply commit_inv.
  - apply tick_inv.
  - apply timerfire_inv.
  - apply sockopen_inv.
  - apply sockmessage_inv.
  - apply sockerror_inv.
  - apply sockclose_inv.
Qed.

Lemma run_inv (job : value) (es : list Event) (w : World) :
  forallb stream_event es = true -> StreamInv url_error job w -> StreamInv url_error job (run w es).
Proof.
  revert w. induction es as [|e es IH]; intros w Hes Hw; [exact Hw|].
  cbn in Hes. apply andb_true_iff in Hes as [He Hes].
  cbn [WS.run fold_left]. apply IH; [exact Hes|]. now apply step_inv.
Qed.


(** The stream as it starts satisfies the invariant. *)
Lemma start_inv (job : value) :
  StreamInv url_error job (step initial (JobChange job)).
Proof.
  cbn [WS.step]. unfold effect, connect, initial. cbn.
  destruct (truthy job); cbn; [|inv_solve].
  destruct (url_error job) eqn:Hurl; cbn; inv_solve.
Qed.

Lemma stream_inv (job : value) (es : list Event) :
  forallb stream_event es = true ->
  StreamInv url_error job (run initial (JobChange job :: es)).
Proof.
  intros Hes. cbn [WS.run fold_left]. apply run_inv; [exact Hes|apply start_inv].
Qed.

Lemma quiet_is_stream_event (e : Event) : quiet_event e = true -> stream_event e = true.
Proof. destruct e; cbn; congruence. Qed.

Lemma quiet_events_stream (es : list Event) :
  forallb quiet_event es = true -> forallb stream_event es = true.
Proof.
  induction es as [|e es IH]; cbn; [reflexivity|].
  intros H. apply andb_true_iff in H as [He Hes].
  now rewrite (quiet_is_stream_event e He), IH.
Qed.

Lemma ws_close_flag (id : nat) (w : World) :
  shouldReconnectRef (ws_close id w) = shouldReconnectRef w.
Proof. apply ws_close_frame. Qed.

(** Only a stop request or a terminal frame turns the flag off. *)
Lemma quiet_step_keeps_flag (w : World) (e : Event) :
  quiet_event e = true ->
  shouldReconnectRef (step w e) = shouldReconnectRef w.
Proof.
  destruct w as [lg pr tot pc st er ws rt sr flag reg sk tm clock].
  destruct e as [| | | |t|id|id parsed|id|id]; try discriminate; intros Hq;
    cbn [WS.step]; world_fields; try reflexivity.
  - destruct (tm !! t) as [tmr|]; [|reflexivity].
    destruct (pending tmr && (due tmr <=? clock)); [|reflexivity].
    unfold reconnect_callback, connect. cbn.
    destruct flag; cbn [negb]; [|reflexivity].
    destruct (url_error (timer_job tmr)); reflexivity.
  - destruct (sk !! id) as [s|]; [|reflexivity].
    destruct (readyState s); try reflexivity.
    unfold onopen. cbn.
    destruct flag; cbn [negb]; [reflexivity|].
    now rewrite ws_close_flag.
  - match goal with |- context [is_open id ?w] => destruct (is_open id w) end;
      [|reflexivity].
    destruct parsed as [data|]; [|reflexivity].
    cbn in Hq. unfold terminal_frame in Hq. unfold onmessage.
    destruct (get data "type") as [ty|]; [|reflexivity].
    apply negb_true_iff, orb_false_iff in Hq as [He Hc]. rewrite He, Hc.
    destruct (is_str ty "log"); [reflexivity|].
    destruct (is_str ty "progress"); reflexivity.
  - destruct (sk !! id) as [s|]; [|reflexivity].
    destruct (close_fired s); reflexivity.
  - destruct (sk !! id) as [s|]; [|reflexivity].
    destruct (close_fired s); [reflexivity|].
    unfold onclose, schedule_reconnect. cbn.
    destruct (flag && negb (Status_eqb sr S_complete)
                   && negb (Status_eqb sr S_error)); reflexivity.
Qed.

Lemma quiet_run_keeps_flag (es : list Event) (w : World) :
  forallb quiet_event es = true ->
  shouldReconnectRef (run w es) = shouldReconnectRef w.
Proof.
  revert w. induction es as [|e es IH]; intros w Hes; [reflexivity|].
  cbn in Hes. apply andb_true_iff in Hes as [He Hes].
  cbn [WS.run fold_left]. fold (run (step w e) es).
  rewrite IH by exact Hes. now apply quiet_step_keeps_flag.
Qed.

Lemma start_sets_flag (job : value) :
  shouldReconnectRef (step initial (JobChange job)) = true.
Proof.
  cbn [WS.step]. unfold effect, connect, initial. cbn.
  destruct (truthy job); cbn; [|reflexivity].
  destruct (url_error job); reflexivity.
Qed.

(** In a stream that was started for [job] and has seen neither a stop nor a
    terminal frame, an open socket while the status is [connected] is a
    connected stream in the sense of [Connected], and the URL of [job] is one
    the constructor accepts. *)
Lemma quiet_stream_connected (job : value) (es : list Event) (id : nat) :
  forallb quiet_event es = true ->
  let w := run initial (JobChange job :: es) in
  is_open id w = true ->
  status w = S_connected ->
  Connected job id w /\ url_error job = None /\ no_pending_timer w.
Proof.
  intros Hes w Hopen Hst.
  assert (Hflag : shouldReconnectRef w = true).
  { subst w. cbn [WS.run fold_left].
    fold (run (step initial (JobChange job)) es).
    rewrite quiet_run_keeps_flag by exact Hes. apply start_sets_flag. }
  pose proof (stream_inv job es (quiet_events_stream es Hes)) as Hinv.
  fold w in Hinv. destruct Hinv.
  unfold is_open, readyState_of in Hopen.
  destruct (sockets w !! id) as [s|] eqn:Hs; [|discriminate].
  destruct s as [j rs fired]. cbn in Hopen.
  destruct rs; try discriminate.
  pose proof (inv_sock_job0 _ _ Hs) as Hj. cbn in Hj. subst j.
  assert (fired = false) as ->.
  { destruct fired; [|reflexivity].
    pose proof (inv_fired0 _ _ Hs eq_refl) as Hc. discriminate Hc. }
  split; [|split; [exact (inv_url0 _ _ Hs)|]].
  2:{ intros t tm Ht. destruct (pending tm) eqn:Hp; [|reflexivity].
      destruct (inv_socket_timer0 _ _ _ _ Hs eq_refl Ht Hp). }
  unfold Connected. repeat split; try assumption.
  - intros Hc. rewrite (inv_completeRef0 Hc) in Hflag. discriminate.
  - intros He. destruct (inv_errorRef0 Hflag He) as [Hall _].
    pose proof (Hall _ _ Hs) as Hc. discriminate Hc.
Qed.

(** C7. In a stream started for a job, with no stop request and no terminal
    event so far, let the connection close while the status is [connected].
    No timer is pending at that point; the status becomes [disconnected] and
    exactly one timer is added, due 3000 ms later, with no socket created
    yet; the close event is not handled twice; the timer does nothing before
    it is due; once due it sets the status to [connecting] and creates
    exactly one new socket for the same job; and any number of such drops is
    followed by as many reconnections. *)
Theorem reconnect_after_drop (job : value) (es : list Event) (id : nat) :
  forallb quiet_event es = true ->
  let w := run initial (JobChange job :: es) in
  is_open id w = true ->
  status w = S_connected ->
  let t := length (timers w) in
  let w1 := step w (SockClose id) in
  no_pending_timer w /\
  status w1 = S_disconnected /\
  timers w1 = timers w ++ [mkTimer (now w + 3000) job true] /\
  reconnectTimeoutRef w1 = Some t /\
  sockets w1 = <[id := mkSocket job CLOSED true]> (sockets w) /\
  step w1 (SockClose id) = w1 /\
  (forall d, d < 3000 -> step (step w1 (Tick d)) (TimerFire t) = step w1 (Tick d)) /\
  (forall d, 3000 <= d ->
     let w2 := run w1 [Tick d; TimerFire t] in
     status w2 = S_connecting /\
     sockets w2 = sockets w1 ++ [mkSocket job CONNECTING false] /\
     timers w2 = timers w ++ [mkTimer (now w + 3000) job false]) /\
  (forall n,
     (exists id', Connected job id' (retries url_error n id w)) /\
     length (sockets (retries url_error n id w)) = (length (sockets w) + n)%nat).
Proof.
  intros Hes w Hopen Hst.
  destruct (quiet_stream_connected job es id Hes Hopen Hst) as (HC & Hurl & Hnone).
  split; [exact Hnone|].
  exact (reconnect_when_connected job id w HC Hurl).
Qed.

End Handlers.

(** *** The cleanup *)

(** The cleanup, field by field: the flag off, both refs empty, logs,
    counters and status as at the start; the current socket closed, the
    current timer cleared; the stored error, [statusRef] and the clock as they
    were. *)
Lemma cleanup_fields (w : World) :
  cleanup w =
  mkWorld [] (num 0) (num 0) (num 0) S_disconnected (error w)
          None None (statusRef w) false (cleanupRegistered w)
          (sockets (match wsRef w with Some id => ws_close id w | None => w end))
          (timers (match reconnectTimeoutRef w with
                   | Some t => clearTimeout t w
                   | None => w
                   end))
          (now w).
Proof.
  destruct w as [lg pr tot pc st er [id|] [t|] sr flag reg sk tm clock];
    unfold cleanup, clearTimeout, ws_close;
    repeat first
      [ progress cbn [logs progress total percentage status error wsRef
                      reconnectTimeoutRef statusRef shouldReconnectRef
                      cleanupRegistered sockets timers now
                      set_shouldReconnectRef set_reconnectTimeoutRef set_wsRef
                      set_timers set_sockets]
      | match goal with
        | |- context [match ?l !! ?i with _ => _ end] => destruct (l !! i)
        | |- context [match readyState ?s with _ => _ end] => destruct (readyState s)
        end ];
    reflexivity.
Qed.

(** What the cleanup establishes. The stored error is not among the values
    it resets. *)
Lemma cleanup_resets (w : World) :
  let w' := cleanup w in
  shouldReconnectRef w' = false /\
  reconnectTimeoutRef w' = None /\
  wsRef w' = None /\
  logs w' = logs initial /\ progress w' = progress initial /\
  total w' = total initial /\ percentage w' = percentage initial /\
  status w' = status initial.
Proof. cbv zeta. rewrite cleanup_fields. repeat split. Qed.

(** The cleanup never writes the stored error. *)
Lemma cleanup_keeps_error (w : World) : error (cleanup w) = error w.
Proof. now rewrite cleanup_fields. Qed.

(** The socket held in the ref is no longer open after the cleanup. *)
Lemma cleanup_closes_current (id : nat) (w : World) :
  wsRef w = Some id -> is_open id (cleanup w) = false.
Proof.
  intros Hid. rewrite cleanup_fields, Hid.
  pose proof (ws_close_not_open id w) as H.
  unfold is_open, readyState_of in *. exact H.
Qed.

(** The timer held in the ref is no longer pending after the cleanup. *)
Lemma cleanup_clears_timer (t : nat) (tm : Timer) (w : World) :
  reconnectTimeoutRef w = Some t ->
  timers w !! t = Some tm ->
  timers (cleanup w) !! t = Some (mkTimer (due tm) (timer_job tm) false).
Proof.
  intros Ht Htm. rewrite cleanup_fields, Ht. world_fields.
  unfold clearTimeout. rewrite Htm. world_fields. unfold set_timers. world_fields.
  apply list_lookup_insert_eq. eapply lookup_lt_Some; eassumption.
Qed.

(** Running the cleanup again changes nothing. *)
Lemma cleanup_idempotent (w : World) : cleanup (cleanup w) = cleanup w.
Proof. rewrite (cleanup_fields (cleanup w)), (cleanup_fields w). reflexivity. Qed.

(** *** Concrete streams *)

Lemma streaming_connected : Connected job1 0%nat streaming.
Proof. repeat split; discriminate. Qed.

(** C1, on the code. A Complete event sets the status to [complete] and the
    handler closes the socket; the close event that follows overwrites the
    status with [disconnected]. No timer and no further socket result. *)
Theorem complete_status_overwritten_on_close :
  let w := run accepts_all streaming [SockMessage 0%nat (Some complete_frame); Commit] in
  let w' := step accepts_all w (SockClose 0%nat) in
  status w = S_complete /\
  readyState_of 0%nat w = Some CLOSING /\
  status w' = S_disconnected /\
  timers w' = [] /\ length (sockets w') = 1%nat /\ logs w' = logs w.
Proof. vm_compute. repeat split. Qed.

(** C6, on the code. The connection attempt fails: the error event sets the
    status to [error], and the close event dispatched right after it, before
    any render is committed, finds [statusRef] still at [connecting], sets the
    status to [disconnected] and schedules a reconnection, which creates a
    second socket when it fires. *)
Theorem failed_connect_still_reconnects :
  let w0 := run accepts_all initial [JobChange job1; Commit; SockError 0%nat] in
  let w1 := step accepts_all w0 (SockClose 0%nat) in
  let w2 := run accepts_all w1 [Tick 3000; TimerFire 0%nat] in
  status w0 = S_error /\ statusRef w0 = S_connecting /\
  status w1 = S_disconnected /\
  timers w1 = [mkTimer 3000 job1 true] /\
  status w2 = S_connecting /\
  sockets w2 = [mkSocket job1 CLOSED true; mkSocket job1 CONNECTING false].
Proof. vm_compute. repeat split. Qed.

(** When a render is committed between the two events, the guard sees
    [error] and nothing is scheduled. *)
Lemma failed_connect_committed_no_reconnect :
  let w := run accepts_all initial
             [JobChange job1; Commit; SockError 0%nat; Commit; SockClose 0%nat] in
  timers w = [] /\ status w = S_disconnected.
Proof. vm_compute. repeat split. Qed.

(** C8, on the code. An Error event stores its message; stopping the stream
    afterwards (the job id is reset to [null]) clears logs, counters and
    status, and leaves the message in place. *)
Theorem stop_leaves_stored_error :
  let w := run accepts_all streaming [SockMessage 0%nat (Some error_frame); Commit] in
  let w' := step accepts_all w (JobChange VNull) in
  error w = VStr "boom" /\
  error w' = VStr "boom" /\ error initial = VNull /\
  logs w' = [] /\ status w' = S_disconnected /\ percentage w' = num 0 /\
  shouldReconnectRef w' = false /\ wsRef w' = None /\
  step accepts_all w' Unmount = w'.
Proof. vm_compute. repeat split. Qed.

(** C2 fails as stated: a Progress event carrying 150 leaves 150 in the
    snapshot. *)
Lemma progress_percentage_150_not_clamped :
  let p := VObj [("type", VStr "progress"); ("processed", num 15);
                 ("total", num 10); ("percentage", num 150)] in
  let w' := step accepts_all streaming (SockMessage 0%nat (Some p)) in
  is_open 0%nat streaming = true /\
  percentage w' = num 150 /\
  ~ pct_in_range (percentage w').
Proof.
  cbv zeta. split; [reflexivity|]. split; [reflexivity|].
  intros (q & Hq & _ & Hle). vm_compute in Hq. injection Hq as <-.
  revert Hle. vm_compute. intros H. apply H. reflexivity.
Qed.

(** C10 fails as stated: for a Complete frame with neither [total] nor
    [processed], the stored total is 0 while the entry records
    [undefined]. *)
Lemma complete_entry_total_differs_from_stored :
  let c := VObj [("type", VStr "complete")] in
  let w' := step accepts_all streaming (SockMessage 0%nat (Some c)) in
  total w' = num 0 /\
  last (logs w') = Some (L_complete VUndefined VUndefined VUndefined 0) /\
  VUndefined <> total w'.
Proof. cbv zeta. split; [reflexivity|]. split; [reflexivity|]. discriminate. Qed.

Lemma complete_sets_percentage_100_witness :
  percentage
    (run accepts_all streaming
       (progress_events 0%nat
          [VObj [("type", VStr "progress"); ("percentage", num 250)]]
        ++ [SockMessage 0%nat (Some (VObj [("type", VStr "complete");
                                           ("percentage", num 7)]))]))
  = num 100.
Proof.
  apply (complete_sets_percentage_100 accepts_all 0%nat
           [VObj [("type", VStr "progress"); ("percentage", num 250)]]
           (VObj [("type", VStr "complete"); ("percentage", num 7)]) streaming).
  - reflexivity.
  - repeat constructor.
  - reflexivity.
Defined.

Lemma progress_stores_percentage_unclamped_witness :
  percentage
    (step accepts_all streaming
       (SockMessage 0%nat (Some (VObj [("type", VStr "progress");
                                       ("percentage", num (-5))]))))
  = num (-5).
Proof.
  apply (progress_stores_percentage_unclamped accepts_all 0%nat
           (VObj [("type", VStr "progress"); ("percentage", num (-5))]) streaming);
    reflexivity.
Defined.

Lemma complete_total_fallback_witness :
  let c := VObj [("type", VStr "complete"); ("processed", num 10)] in
  let w' := step accepts_all streaming (SockMessage 0%nat (Some c)) in
  total w' = num 10 /\
  logs w' = logs streaming ++ [L_complete VUndefined (num 10) (num 10) 0] /\
  (true = true -> total w' = num 10).
Proof.
  apply (complete_total_fallback accepts_all 0%nat
           (VObj [("type", VStr "complete"); ("processed", num 10)]) streaming);
    reflexivity.
Defined.

Lemma reconnect_after_drop_witness :
  let w := run accepts_all initial (JobChange job1 :: [Commit; SockOpen 0%nat; Commit]) in
  let t := length (timers w) in
  let w1 := step accepts_all w (SockClose 0%nat) in
  no_pending_timer w /\
  status w1 = S_disconnected /\
  timers w1 = timers w ++ [mkTimer (now w + 3000) job1 true] /\
  reconnectTimeoutRef w1 = Some t /\
  sockets w1 = <[0%nat := mkSocket job1 CLOSED true]> (sockets w) /\
  step accepts_all w1 (SockClose 0%nat) = w1 /\
  (forall d, d < 3000 ->
     step accepts_all (step accepts_all w1 (Tick d)) (TimerFire t)
     = step accepts_all w1 (Tick d)) /\
  (forall d, 3000 <= d ->
     let w2 := run accepts_all w1 [Tick d; TimerFire t] in
     status w2 = S_connecting /\
     sockets w2 = sockets w1 ++ [mkSocket job1 CONNECTING false] /\
     timers w2 = timers w ++ [mkTimer (now w + 3000) job1 false]) /\
  (forall n,
     (exists id', Connected job1 id' (retries accepts_all n 0%nat w)) /\
     length (sockets (retries accepts_all n 0%nat w)) = (length (sockets w) + n)%nat).
Proof.
  apply (reconnect_after_drop accepts_all job1 [Commit; SockOpen 0%nat; Commit] 0%nat);
    vm_compute; reflexivity.
Defined.

End WSProofs.

(* ================================================================== *)
(** ** Facts about useProductUpload *)

Module UploadProofs.
Import JS Upload.

(** *** File names *)

Lemma length_lowercase (s : string) : String.length (lowercase s) = String.length s.
Proof. induction s as [|c s IH]; cbn; [reflexivity|now rewrite IH]. Qed.

Lemma substring_lowercase (n m : nat) (s : string) :
  substring n m (lowercase s) = lowercase (substring n m s).
Proof.
  revert n m. induction s as [|c s IH]; intros [|n] [|m]; cbn; try reflexivity.
  - now rewrite IH.
  - apply IH.
  - apply IH.
Qed.

Lemma endsWith_lowercase (s suffix : string) :
  endsWith s suffix = true -> endsWith (lowercase s) (lowercase suffix) = true.
Proof.
  unfold endsWith. rewrite !length_lowercase, substring_lowercase.
  intros H. apply andb_true_iff in H as [Hlen Heq].
  apply String.eqb_eq in Heq. rewrite Heq, Hlen. cbn [andb].
  apply String.eqb_refl.
Qed.

(** A name without the extension in any case mix ends in neither spelling
    the code tests. *)
Lemma no_extension_no_spelling (s : string) :
  ends_with_extension_ci s = false ->
  endsWith s ".csv" = false /\ endsWith s ".CSV" = false.
Proof.
  unfold ends_with_extension_ci. intros H.
  split.
  - destruct (endsWith s ".csv") eqn:E; [|reflexivity].
    apply endsWith_lowercase in E.
    change (lowercase ".csv") with ".csv" in E. congruence.
  - destruct (endsWith s ".CSV") eqn:E; [|reflexivity].
    apply endsWith_lowercase in E.
    change (lowercase ".CSV") with ".csv" in E. congruence.
Qed.

Lemma uploadFile_validation (env : Env) (f : File) (st : HookState) :
  endsWith (name f) ".csv" = false ->
  endsWith (name f) ".CSV" = false ->
  uploadFile env (Some f) st = (VNull, setError (VStr "File must be a CSV file") st, []).
Proof. intros H1 H2. unfold uploadFile. now rewrite H1, H2. Qed.

(** C4, as the code has it. A file whose name ends in neither [.csv] nor
    [.CSV] is refused with the validation message, the rest of the state
    untouched, and no file read, codec call or network call is made. *)
Theorem uploadFile_rejects_other_names (env : Env) (f : File) (st : HookState) :
  endsWith (name f) ".csv" = false ->
  endsWith (name f) ".CSV" = false ->
  uploadFile env (Some f) st = (VNull, setError (VStr "File must be a CSV file") st, []).
Proof. apply uploadFile_validation. Qed.

(** In particular every name that lacks the extension in all case mixes is
    refused. *)
Lemma uploadFile_rejects_without_extension (env : Env) (f : File) (st : HookState) :
  ends_with_extension_ci (name f) = false ->
  uploadFile env (Some f) st = (VNull, setError (VStr "File must be a CSV file") st, []).
Proof.
  intros H. apply no_extension_no_spelling in H as [H1 H2].
  now apply uploadFile_validation.
Qed.

(** C4 fails as stated: [data.Csv] ends in the extension when case is
    ignored, and is refused all the same. *)
Lemma mixed_case_name_rejected :
  let f := mkFile "data.Csv" [] in
  ends_with_extension_ci (name f) = true /\
  uploadFile (backend (VObj [("job_id", VStr "j1")])) (Some f) initial
  = (VNull, mkState false VNull (VStr "File must be a CSV file"), []).
Proof. split; reflexivity. Qed.

Lemma uploadFile_rejects_other_names_witness :
  uploadFile (backend VNull) (Some (mkFile "report.txt" [])) initial
  = (VNull, setError (VStr "File must be a CSV file") initial, []).
Proof.
  apply (uploadFile_rejects_other_names (backend VNull) (mkFile "report.txt" []) initial);
    reflexivity.
Defined.

(** *** The job id *)

Lemma uploadFile_accepted (env : Env) (f : File) (st : HookState) :
  accepted f = true ->
  uploadFile env (Some f) st =
  let st := setJobId VNull (setError VNull (setUploading true st)) in
  match try_block env f with
  | (Fulfilled newJobId, io) => (newJobId, setUploading false (setJobId newJobId st), io)
  | (Rejected err, io) => (VNull, setUploading false (setError (errorMessage err) st), io)
  end.
Proof.
  unfold accepted, uploadFile. intros H.
  apply orb_true_iff in H.
  destruct (endsWith (name f) ".csv"), (endsWith (name f) ".CSV");
    cbn [negb andb]; try reflexivity.
  destruct H; discriminate.
Qed.

(** C3, as the code has it. On a 2xx response whose body is neither [null]
    nor [undefined], the [job_id] property is stored and returned as read:
    when the body lacks it, the upload ends with no error and an [undefined]
    job id. *)
Theorem uploadFile_stores_job_id_unchecked
    (env : Env) (f : File) (st : HookState)
    (compressed : list byte) (io : list IO) (body v : value) :
  accepted f = true ->
  compress env f = (Fulfilled compressed, io) ->
  post env (name f ++ ".gz")%string compressed = Fulfilled body ->
  get body "job_id" = Some v ->
  uploadFile env (Some f) st
  = (v, mkState false v VNull, io ++ [IO_post (name f ++ ".gz")%string compressed]).
Proof.
  intros Hacc Hc Hpost Hget. rewrite uploadFile_accepted by assumption.
  unfold try_block, submit. rewrite Hc, Hpost, Hget. reflexivity.
Qed.

(** C3 fails as stated: a 2xx response with body [{}] ends the upload with
    no error recorded and [undefined] as the job id. *)
Lemma missing_job_id_accepted :
  let f := mkFile "products.csv" [Byte.x61] in
  uploadFile (backend (VObj [])) (Some f) initial
  = (VUndefined, mkState false VUndefined VNull,
     [IO_read f; IO_gzip [Byte.x61];
      IO_post "products.csv.gz" [Byte.x1f; Byte.x8b; Byte.x61]]).
Proof. reflexivity. Qed.

Lemma uploadFile_stores_job_id_unchecked_witness :
  let f := mkFile "products.csv" [Byte.x61] in
  uploadFile (backend (VObj [("job_id", VStr "j1")])) (Some f) initial
  = (VStr "j1", mkState false (VStr "j1") VNull,
     [IO_read f; IO_gzip [Byte.x61]]
     ++ [IO_post "products.csv.gz" [Byte.x1f; Byte.x8b; Byte.x61]]).
Proof.
  apply (uploadFile_stores_job_id_unchecked
           (backend (VObj [("job_id", VStr "j1")]))
           (mkFile "products.csv" [Byte.x61]) initial
           [Byte.x1f; Byte.x8b; Byte.x61]
           [IO_read (mkFile "products.csv" [Byte.x61]); IO_gzip [Byte.x61]]
           (VObj [("job_id", VStr "j1")]) (VStr "j1"));
    reflexivity.
Defined.

(** *** The compressed payload *)

Lemma compress_payload (env : Env) (f : File) (blob : list byte) (io : list IO) :
  compress env f = (Fulfilled blob, io) ->
  gzip env (Encoding.TextEncoder_encode (Encoding.text (content f))) = Fulfilled blob.
Proof.
  unfold compress. destruct (read_error env f); intros H; inversion H. reflexivity.
Qed.

(** C9, as the code has it. For a file whose content is well-formed UTF-8
    with no leading byte-order mark, the compressed output decompresses to
    the content, byte for byte. *)
Theorem compress_roundtrip_wellformed
    (env : Env) (gunzip : list byte -> option (list byte))
    (f : File) (cps : list Z) (blob : list byte) (io : list IO) :
  lossless env gunzip ->
  Forall Encoding.is_scalar cps ->
  content f = Encoding.utf8_encode cps ->
  Encoding.strip_bom (content f) = content f ->
  compress env f = (Fulfilled blob, io) ->
  gunzip blob = Some (content f).
Proof.
  intros Hcodec Hcps Hcontent Hbom Hc.
  apply compress_payload in Hc. apply Hcodec in Hc. rewrite Hc.
  f_equal. now apply (EncodingProofs.encode_text_wellformed _ cps).
Qed.

Lemma stored_codec_lossless (body : value) : lossless (backend body) stored_gunzip.
Proof. intros data blob H. inversion H. reflexivity. Qed.

(** C9 fails as stated: the single byte FF is not UTF-8; the text read from
    it is U+FFFD, and what is compressed is EF BF BD. *)
Lemma invalid_utf8_not_roundtripped :
  let f := mkFile "products.csv" [Byte.xff] in
  let env := backend (VObj [("job_id", VStr "j1")]) in
  accepted f = true /\
  lossless env stored_gunzip /\
  exists blob io,
    compress env f = (Fulfilled blob, io) /\
    stored_gunzip blob = Some [Byte.xef; Byte.xbf; Byte.xbd] /\
    stored_gunzip blob <> Some (content f).
Proof.
  cbv zeta. split; [reflexivity|]. split; [apply stored_codec_lossless|].
  eexists _, _. split; [reflexivity|]. split; [reflexivity|]. discriminate.
Qed.

Lemma compress_roundtrip_wellformed_witness :
  let f := mkFile "products.csv" [Byte.x61; Byte.xc3; Byte.xa9; Byte.x0a] in
  stored_gunzip [Byte.x1f; Byte.x8b; Byte.x61; Byte.xc3; Byte.xa9; Byte.x0a]
  = Some (content f).
Proof.
  apply (compress_roundtrip_wellformed (backend VNull) stored_gunzip
           (mkFile "products.csv" [Byte.x61; Byte.xc3; Byte.xa9; Byte.x0a])
           [0x61; 0xE9; 0x0A]
           [Byte.x1f; Byte.x8b; Byte.x61; Byte.xc3; Byte.xa9; Byte.x0a]
           [IO_read (mkFile "products.csv" [Byte.x61; Byte.xc3; Byte.xa9; Byte.x0a]);
            IO_gzip [Byte.x61; Byte.xc3; Byte.xa9; Byte.x0a]]).
  - apply stored_codec_lossless.
  - repeat constructor; unfold Encoding.is_scalar; lia.
  - reflexivity.
  - reflexivity.
  - reflexivity.
Defined.

End UploadProofs.

(* ================================================================== *)
(** ** More facts about the text codecs *)

Module EncodingExtra.
Import Encoding DecoderStates EncodingProofs.

Lemma is_scalar_REPLACEMENT : is_scalar REPLACEMENT.
Proof. unfold is_scalar, REPLACEMENT. lia. Qed.

Lemma completes_scalar_init : completes_scalar dec_init.
Proof. left. reflexivity. Qed.

Lemma lead_scalar (b : Z) :
  0 <= b < 256 ->
  match lead b with
  | LeadEmit cp => is_scalar cp
  | LeadStart st => completes_scalar st
  | LeadError => True
  end.
Proof.
  intros Hb. unfold lead.
  destruct (Z.leb_spec b 0x7F); [unfold is_scalar; lia|].
  destruct (Z.leb_spec 0xC2 b); cbn [andb].
  - destruct (Z.leb_spec b 0xDF); cbn [andb].
    + right. rewrite land_0x1F. cbn. dlia.
    + destruct (Z.leb_spec 0xE0 b); [|lia]. cbn [andb].
      destruct (Z.leb_spec b 0xEF); cbn [andb].
      * right. rewrite land_0xF. cbn.
        destruct (Z.eqb_spec b 0xE0), (Z.eqb_spec b 0xED); dlia.
      * destruct (Z.leb_spec 0xF0 b); [|lia]. cbn [andb].
        destruct (Z.leb_spec b 0xF4); cbn [andb]; [|exact I].
        right. rewrite land_0x7. cbn.
        destruct (Z.eqb_spec b 0xF0), (Z.eqb_spec b 0xF4); dlia.
  - destruct (Z.leb_spec 0xE0 b); [lia|]. cbn [andb].
    destruct (Z.leb_spec 0xF0 b); [lia|]. exact I.
Qed.

Lemma decoder_scalar (bs : list byte) :
  forall st, completes_scalar st -> Forall is_scalar (utf8_decoder st bs).
Proof.
  induction bs as [|b bs IH]; intros st Hst.
  - cbn. destruct (bytes_needed st =? 0);
      [constructor|constructor; [apply is_scalar_REPLACEMENT|constructor]].
  - cbn [utf8_decoder].
    pose proof (b2z_range b) as Hb.
    assert (Hlead : Forall is_scalar
              match lead (b2z b) with
              | LeadEmit cp => cp :: utf8_decoder dec_init bs
              | LeadStart st' => utf8_decoder st' bs
              | LeadError => REPLACEMENT :: utf8_decoder dec_init bs
              end).
    { pose proof (lead_scalar (b2z b) Hb) as Hl.
      destruct (lead (b2z b)).
      - constructor; [exact Hl|apply IH, completes_scalar_init].
      - now apply IH.
      - constructor; [apply is_scalar_REPLACEMENT|apply IH, completes_scalar_init]. }
    destruct (Z.eqb_spec (bytes_needed st) 0) as [Hz|Hnz]; [exact Hlead|].
    destruct (Z.ltb_spec (b2z b) (lower_boundary st)) as [Hlo|Hlo]; cbn [orb].
    { constructor; [apply is_scalar_REPLACEMENT|exact Hlead]. }
    destruct (Z.ltb_spec (upper_boundary st) (b2z b)) as [Hup|Hup].
    { constructor; [apply is_scalar_REPLACEMENT|exact Hlead]. }
    destruct Hst as [Hz|Hst]; [contradiction|]. cbv zeta in Hst.
    destruct Hst as (_ & Hr & Hl & Hu & H0 & Hmax & Hsur).
    rewrite land_0x3F.
    pose proof (Z.mod_pos_bound (b2z b) 64 ltac:(lia)) as Hm.
    rewrite (lor_shiftl_low (code_point st) (b2z b mod 64) 6) by (cbn; lia).
    change (2 ^ 6) with 64.
    assert (Hmod : b2z b mod 64 = b2z b - 128) by dlia.
    rewrite Hmod.
    assert (Hcases : bytes_needed st - bytes_seen st = 1 \/
                     bytes_needed st - bytes_seen st = 2 \/
                     bytes_needed st - bytes_seen st = 3) by lia.
    destruct (Z.eqb_spec (bytes_seen st + 1) (bytes_needed st)) as [Hlast|Hmore].
    + constructor; [|apply IH, completes_scalar_init].
      replace (bytes_needed st - bytes_seen st) with 1 in * by lia.
      cbn in H0, Hmax, Hsur. unfold is_scalar. lia.
    + apply IH. right. cbn.
      destruct Hcases as [Hc|[Hc|Hc]]; [lia| |].
      * rewrite Hc in *.
        replace (bytes_needed st - (bytes_seen st + 1)) with 1 by lia.
        cbn in *. lia.
      * rewrite Hc in *.
        replace (bytes_needed st - (bytes_seen st + 1)) with 2 by lia.
        cbn in *. lia.
Qed.

(** Whatever the bytes, the text read from them consists of scalar values
    only, and [TextEncoder] gives the UTF-8 encoding of exactly these. *)
Lemma encoded_text_wellformed (bs : list byte) :
  Forall is_scalar (utf8_decode bs) /\
  TextEncoder_encode (text bs) = utf8_encode (utf8_decode bs).
Proof.
  assert (H : Forall is_scalar (utf8_decode bs))
    by (apply decoder_scalar, completes_scalar_init).
  split; [exact H|].
  unfold TextEncoder_encode, text. now rewrite scalar_values_string.
Qed.

End EncodingExtra.

(* ================================================================== *)
(** ** More facts about useWebSocket *)

Module WSExtra.
Import JS WS Frames WSProofs.

Lemma onmessage_log (data : value) (w : World) :
  has_type "log" data ->
  onmessage (Some data) w =
  setLogs (fun prev => prev ++ [L_log (get_opt data "message") (now w)]) w.
Proof. intros H. unfold onmessage. rewrite H. reflexivity. Qed.

Lemma onmessage_unknown (parsed : option value) (w : World) :
  known_frame parsed = false -> onmessage parsed w = w.
Proof.
  unfold known_frame, onmessage. destruct parsed as [data|]; [|reflexivity].
  destruct (get data "type") as [ty|]; [|reflexivity].
  intros H. repeat (apply orb_false_iff in H as [H ?]).
  repeat match goal with H : is_str _ _ = false |- _ => rewrite H; clear H end.
  reflexivity.
Qed.

Lemma close_current_not_open (id : nat) (w : World) :
  wsRef w = Some id -> is_open id (close_current_if_open w) = false.
Proof.
  intros Href. unfold close_current_if_open. rewrite Href.
  destruct (is_open id w) eqn:Hopen; [apply ws_close_not_open|exact Hopen].
Qed.

Lemma ws_close_not_connecting (id : nat) (w : World) (s : Socket) :
  sockets (ws_close id w) !! id = Some s -> readyState s <> CONNECTING.
Proof.
  unfold ws_close. destruct (sockets w !! id) as [s0|] eqn:Hs0.
  - destruct (readyState s0) eqn:Hr; setters; intros Hs;
      rewrite ?list_lookup_insert_eq in Hs by (eapply lookup_lt_Some; eassumption);
      rewrite ?Hs0 in Hs; inversion Hs; subst; cbn; congruence.
  - intros Hs. rewrite Hs0 in Hs. discriminate.
Qed.

Lemma terminal_frame_cases (data : value) :
  terminal_frame data = true -> has_type "error" data \/ has_type "complete" data.
Proof.
  unfold terminal_frame, has_type.
  destruct (get data "type") as [ty|]; [|discriminate].
  intros H. apply orb_true_iff in H as [H|H];
    destruct ty; try discriminate; apply String.eqb_eq in H; subst; auto.
Qed.

Section Stream.

Variable url_error : value -> option string.

Local Abbreviation step := (WS.step url_error).
Local Abbreviation run := (WS.run url_error).

(** X1. A frame that does not parse, whose [type] cannot be read, or whose
    type is none of [log], [progress], [error], [complete] changes nothing at
    all, on whatever socket and in whatever state it arrives. *)
Theorem unknown_frame_ignored (id : nat) (parsed : option value) (w : World) :
  known_frame parsed = false ->
  step w (SockMessage id parsed) = w.
Proof.
  intros H. cbn [WS.step]. destruct (is_open id w); [|reflexivity].
  now apply onmessage_unknown.
Qed.

(** X2. Log frames delivered on an open socket are appended to the log in
    the order received, one entry each with the frame's message, duplicates
    included, and nothing else in the hook changes. *)
Theorem log_frames_in_order (id : nat) (ds : list value) (w : World) :
  is_open id w = true ->
  Forall (has_type "log") ds ->
  run w (deliver id ds) =
  setLogs (fun prev => prev ++ map (fun d => L_log (get_opt d "message") (now w)) ds) w.
Proof.
  intros Hopen Hds. revert w Hopen.
  induction Hds as [|d ds Hd _ IH]; intros w Hopen.
  - destruct w. unfold setLogs. cbn. now rewrite app_nil_r.
  - cbn [deliver map WS.run fold_left WS.step]. rewrite Hopen, onmessage_log by exact Hd.
    fold (deliver id ds). fold (run (setLogs (fun prev => prev ++
      [L_log (get_opt d "message") (now w)]) w) (deliver id ds)).
    rewrite IH by exact Hopen.
    destruct w. unfold setLogs. cbn. now rewrite <- app_assoc.
Qed.

Lemma progress_frames_run (id : nat) (ps : list value) (w : World) :
  is_open id w = true ->
  Forall (has_type "progress") ps ->
  let w' := run w (deliver id ps) in
  is_open id w' = true /\ now w' = now w /\
  status w' = status w /\ shouldReconnectRef w' = shouldReconnectRef w /\
  logs w' = logs w ++
    map (fun p => L_progress (get_opt p "message") (get_opt p "processed")
                             (get_opt p "total") (get_opt p "percentage") (now w)) ps.
Proof.
  intros Hopen Hps. revert w Hopen.
  induction Hps as [|p ps Hp _ IH]; intros w Hopen.
  - cbn. now rewrite app_nil_r.
  - cbn [deliver map WS.run fold_left WS.step].
    rewrite Hopen, onmessage_progress by exact Hp.
    fold (deliver id ps).
    match goal with |- context [fold_left _ _ ?w1] =>
      fold (run w1 (deliver id ps));
      destruct (IH w1 Hopen) as (H1 & H2 & H3 & H4 & H5)
    end.
    cbv zeta. rewrite H1, H2, H3, H4, H5.
    destruct w. cbn. now rewrite <- app_assoc.
Qed.

(** X3. After Progress frames on an open socket the snapshot is that of the
    last frame ([processed || 0], [total || 0], [percentage || 0]), whatever
    the earlier ones carried, and the log has one entry per frame, in
    order. *)
Theorem progress_last_write_wins (id : nat) (ps : list value) (p : value) (w : World) :
  is_open id w = true ->
  Forall (has_type "progress") (ps ++ [p]) ->
  let w' := run w (deliver id (ps ++ [p])) in
  progress w' = or_else (get_opt p "processed") (num 0) /\
  total w' = or_else (get_opt p "total") (num 0) /\
  percentage w' = or_else (get_opt p "percentage") (num 0) /\
  logs w' = logs w ++
    map (fun p => L_progress (get_opt p "message") (get_opt p "processed")
                             (get_opt p "total") (get_opt p "percentage") (now w))
        (ps ++ [p]).
Proof.
  intros Hopen Hall. pose proof Hall as Hall'.
  apply Forall_app in Hall' as [Hps Hp]. apply Forall_inv in Hp.
  split; [|split; [|split]].
  4: exact (proj2 (proj2 (proj2 (proj2 (progress_frames_run id _ w Hopen Hall))))).
  all: unfold deliver, WS.run; rewrite map_app, fold_left_app;
    fold (deliver id ps); fold (run w (deliver id ps));
    destruct (progress_frames_run id ps w Hopen Hps) as (Hopen' & _);
    cbn [map fold_left WS.step]; rewrite Hopen', onmessage_progress by exact Hp;
    reflexivity.
Qed.


(** *** The log only grows *)

Lemma step_extends_logs (w : World) (e : Event) :
  stream_event e = true ->
  exists l, logs (step w e) = logs w ++ l /\ (length l <= 1)%nat.
Proof.
  assert (Hnil : forall w', logs w' = logs w ->
            exists l, logs w' = logs w ++ l /\ (length l <= 1)%nat).
  { intros w' H. exists []. rewrite app_nil_r. split; [exact H|cbn; lia]. }
  destruct e as [| | | |t|id|id parsed|id|id]; try discriminate; intros _;
    cbn [WS.step]; try (apply Hnil; reflexivity).
  - destruct (timers w !! t) as [tm|]; [|apply Hnil; reflexivity].
    destruct (pending tm && (due tm <=? now w)); [|apply Hnil; reflexivity].
    apply Hnil. unfold reconnect_callback, connect.
    destruct w as [lg pr tot pc st er ws rt sr flag reg sk tms clock]. cbn.
    destruct flag; cbn; [|reflexivity].
    destruct (url_error (timer_job tm)); reflexivity.
  - destruct (sockets w !! id) as [s|]; [|apply Hnil; reflexivity].
    destruct (readyState s); try (apply Hnil; reflexivity).
    unfold onopen.
    destruct w as [lg pr tot pc st er ws rt sr flag reg sk tms clock]. cbn.
    destruct flag; cbn.
    + eexists. split; [reflexivity|cbn; lia].
    + apply Hnil. etransitivity; [apply ws_close_frame|reflexivity].
  - destruct (is_open id w); [|apply Hnil; reflexivity].
    destruct parsed as [data|]; [|apply Hnil; reflexivity].
    unfold onmessage. destruct (get data "type") as [ty|]; [|apply Hnil; reflexivity].
    destruct (is_str ty "log");
      [|destruct (is_str ty "progress");
        [|destruct (is_str ty "error"); [|destruct (is_str ty "complete")]]];
      rewrite ?close_current_logs;
      try (apply Hnil; reflexivity);
      destruct w; cbn; eexists; (split; [reflexivity|cbn; lia]).
  - destruct (sockets w !! id) as [s|]; [|apply Hnil; reflexivity].
    destruct (close_fired s); apply Hnil; reflexivity.
  - destruct (sockets w !! id) as [s|]; [|apply Hnil; reflexivity].
    destruct (close_fired s); [apply Hnil; reflexivity|].
    apply Hnil. unfold onclose, schedule_reconnect.
    destruct w as [lg pr tot pc st er ws rt sr flag reg sk tms clock]. cbn.
    destruct (flag && negb (Status_eqb sr S_complete)
                   && negb (Status_eqb sr S_error)); reflexivity.
Qed.

(** X4. While the stream is not stopped (no change of job id, no unmount),
    no event removes or rewrites a log entry: the log after any such events
    is the log before, followed by at most one new entry per event. *)
Theorem logs_append_only (es : list Event) (w : World) :
  forallb stream_event es = true ->
  exists l, logs (run w es) = logs w ++ l /\ (length l <= length es)%nat.
Proof.
  revert w. induction es as [|e es IH]; intros w Hes.
  - exists []. cbn. now rewrite app_nil_r.
  - cbn in Hes. apply andb_true_iff in Hes as [He Hes].
    cbn [WS.run fold_left]. fold (run (step w e) es).
    destruct (step_extends_logs w e He) as (l1 & H1 & Hl1).
    destruct (IH (step w e) Hes) as (l2 & H2 & Hl2).
    exists (l1 ++ l2). rewrite H2, H1, <- app_assoc. split; [reflexivity|].
    rewrite length_app. cbn [length]. lia.
Qed.

(** *** Terminal frames *)

Lemma closing_socket_inert (id : nat) (w : World) :
  is_open id w = false ->
  (forall s, sockets w !! id = Some s -> readyState s <> CONNECTING) ->
  (forall parsed, step w (SockMessage id parsed) = w) /\
  step w (SockOpen id) = w.
Proof.
  intros Hopen Hnc. split.
  - intros parsed. cbn [WS.step]. now rewrite Hopen.
  - cbn [WS.step]. destruct (sockets w !! id) as [s|] eqn:Hs; [|reflexivity].
    specialize (Hnc s eq_refl). destruct (readyState s); try reflexivity.
    contradiction.
Qed.

(** X5. After a Complete or Error frame on the open socket held in [wsRef],
    the flag is off and the socket is no longer open: every later frame on
    it is ignored, and its close event schedules no timer and creates no
    socket. *)
Theorem terminal_frame_silences_socket (id : nat) (data : value) (w : World) :
  wsRef w = Some id ->
  is_open id w = true ->
  terminal_frame data = true ->
  let w' := step w (SockMessage id (Some data)) in
  shouldReconnectRef w' = false /\
  is_open id w' = false /\
  (forall parsed, step w' (SockMessage id parsed) = w') /\
  timers (step w' (SockClose id)) = timers w' /\
  length (sockets (step w' (SockClose id))) = length (sockets w').
Proof.
  intros Href Hopen Hterm. cbn [WS.step]. rewrite Hopen. cbv zeta.
  set (w' := onmessage (Some data) w).
  assert (Hflag : shouldReconnectRef w' = false).
  { apply terminal_event_clears_flag.
    destruct (terminal_frame_cases data Hterm) as [H|H]; auto. }
  assert (Hclosed : is_open id w' = false).
  { subst w'. destruct (terminal_frame_cases data Hterm) as [H|H].
    - rewrite onmessage_error by exact H. now apply close_current_not_open.
    - rewrite onmessage_complete by exact H. now apply close_current_not_open. }
  split; [exact Hflag|]. split; [exact Hclosed|]. split.
  - intros parsed. cbn [WS.step]. now rewrite Hclosed.
  - cbn [WS.step]. destruct (sockets w' !! id) as [s|] eqn:Hs; [|now split].
    destruct (close_fired s) eqn:Hf; [now split|].
    unfold onclose. clearbody w'. destruct w'. cbn in *. subst. cbn.
    split; [reflexivity|apply length_insert].
Qed.

(** X6. An Error frame on an open socket sets the status to [error], stores
    the frame's [message] as the error (as it is, also when absent), appends
    one error entry with the message and the detail, and leaves the progress
    snapshot as it was. *)
Theorem error_frame_effects (id : nat) (data : value) (w : World) :
  is_open id w = true ->
  has_type "error" data ->
  let w' := step w (SockMessage id (Some data)) in
  status w' = S_error /\
  error w' = get_opt data "message" /\
  logs w' = logs w ++ [L_error (get_opt data "message") (get_opt data "detail") (now w)] /\
  progress w' = progress w /\ total w' = total w /\ percentage w' = percentage w.
Proof.
  intros Hopen Hty. cbn [WS.step]. rewrite Hopen, onmessage_error by exact Hty.
  cbv zeta.
  match goal with |- context [close_current_if_open ?w1] =>
    destruct (close_current_if_open_frame w1) as (-> & -> & -> & -> & -> & -> & _)
  end.
  destruct w. cbn. repeat split.
Qed.

(** *** A stopped stream *)

Lemma stopped_step (w : World) (e : Event) :
  stream_event e = true ->
  shouldReconnectRef w = false ->
  shouldReconnectRef (step w e) = false /\
  length (sockets (step w e)) = length (sockets w) /\
  length (timers (step w e)) = length (timers w) /\
  wsRef (step w e) = wsRef w.
Proof.
  destruct w as [lg pr tot pc st er ws rt sr flag reg sk tms clock].
  intros He Hflag. cbn in Hflag. subst flag.
  destruct e as [| | | |t|id|id parsed|id|id]; try discriminate; clear He;
    cbn [WS.step]; world_fields; try (repeat split; reflexivity).
  - destruct (tms !! t) as [tm|]; [|repeat split; reflexivity].
    destruct (pending tm && (due tm <=? clock)); [|repeat split; reflexivity].
    unfold reconnect_callback. cbn. repeat split. apply length_insert.
  - destruct (sk !! id) as [s|] eqn:Hs; [|repeat split; reflexivity].
    destruct (readyState s); try (repeat split; reflexivity).
    unfold onopen, ws_close. cbn.
    rewrite list_lookup_insert_eq by (eapply lookup_lt_Some; eassumption).
    cbn. repeat split. now rewrite !length_insert.
  - match goal with |- context [is_open id ?w] => destruct (is_open id w) end;
      [|repeat split; reflexivity].
    destruct parsed as [data|]; [|repeat split; reflexivity].
    unfold onmessage. destruct (get data "type") as [ty|]; [|repeat split; reflexivity].
    destruct (is_str ty "log");
      [|destruct (is_str ty "progress");
        [|destruct (is_str ty "error"); [|destruct (is_str ty "complete")]]];
      try (repeat split; reflexivity);
      unfold close_current_if_open, ws_close; cbn;
      destruct ws as [cur|]; try (repeat split; reflexivity);
      match goal with |- context [is_open cur ?w] => destruct (is_open cur w) end;
      try (repeat split; reflexivity); cbn;
      (destruct (sk !! cur) as [s|]; [destruct (readyState s)|]);
      cbn; repeat split; try reflexivity; apply length_insert.
  - destruct (sk !! id) as [s|]; [|repeat split; reflexivity].
    destruct (close_fired s); [repeat split; reflexivity|].
    unfold onerror. cbn. repeat split. apply length_insert.
  - destruct (sk !! id) as [s|]; [|repeat split; reflexivity].
    destruct (close_fired s); [repeat split; reflexivity|].
    unfold onclose. cbn. repeat split. apply length_insert.
Qed.

(** X7. Once the flag is off (after a terminal frame or a stop), and until
    a new job is started, no event creates a socket or schedules a timer,
    whatever sockets and timers are still around, and the flag stays off. *)
Theorem stopped_never_reconnects (es : list Event) (w : World) :
  shouldReconnectRef w = false ->
  forallb stream_event es = true ->
  let w' := run w es in
  shouldReconnectRef w' = false /\
  length (sockets w') = length (sockets w) /\
  length (timers w') = length (timers w) /\
  wsRef w' = wsRef w.
Proof.
  intros Hflag Hes. revert w Hflag.
  induction es as [|e es IH]; intros w Hflag; [cbn; auto|].
  cbn in Hes. apply andb_true_iff in Hes as [He Hes].
  cbn [WS.run fold_left]. fold (run (step w e) es).
  destruct (stopped_step w e He Hflag) as (Hf & Hs & Ht & Hr).
  destruct (IH Hes (step w e) Hf) as (Hf' & Hs' & Ht' & Hr').
  cbv zeta. rewrite Hs', Ht', Hr'. auto.
Qed.

(** *** Starting *)

Lemma dead_step (w : World) (e : Event) :
  stream_event e = true ->
  sockets w = [] -> timers w = [] ->
  sockets (step w e) = [] /\ timers (step w e) = [] /\
  status (step w e) = status w /\ error (step w e) = error w /\
  logs (step w e) = logs w.
Proof.
  destruct w as [lg pr tot pc st er ws rt sr flag reg sk tms clock].
  intros He Hs Ht. cbn in Hs, Ht. subst sk tms.
  destruct e; try discriminate; cbn; auto.
Qed.

(** X8. When the [WebSocket] constructor rejects the URL of the job, the
    start ends in status [error] with the exception's message and without
    any socket or timer, and nothing that follows, short of a new job,
    changes that: there is no retry. *)
Theorem rejected_url_stays_error (job : value) (msg : string) (es : list Event) :
  truthy job = true ->
  url_error job = Some msg ->
  forallb stream_event es = true ->
  let w' := run initial (JobChange job :: es) in
  status w' = S_error /\ error w' = VStr msg /\
  sockets w' = [] /\ timers w' = [] /\ logs w' = [].
Proof.
  intros Hjob Hurl Hes. cbn [WS.run fold_left].
  set (w0 := step initial (JobChange job)).
  assert (H0 : sockets w0 = [] /\ timers w0 = [] /\ status w0 = S_error /\
               error w0 = VStr msg /\ logs w0 = []).
  { subst w0. cbn [WS.step]. unfold effect, connect, initial. cbn.
    rewrite Hjob. cbn. rewrite Hurl. cbn. repeat split. }
  clearbody w0. revert w0 H0.
  induction es as [|e es IH]; intros w0 (Hs & Ht & Hst & Her & Hl).
  - cbn. auto.
  - cbn in Hes. apply andb_true_iff in Hes as [He Hes].
    cbn [fold_left]. apply (IH Hes).
    destruct (dead_step w0 e He Hs Ht) as (Hs' & Ht' & Hst' & Her' & Hl').
    rewrite Hs', Ht', Hst', Her', Hl'. auto.
Qed.

(** X9. A change to a new job id whose URL is accepted, while a stream is
    running: the old stream's socket is no longer open and its pending timer
    is cleared, logs and counters are empty again, and exactly one socket is
    created, connecting for the new job, with the flag set again. *)
Theorem job_change_restarts (job : value) (w : World) :
  cleanupRegistered w = true ->
  truthy job = true ->
  url_error job = None ->
  let w' := step w (JobChange job) in
  logs w' = [] /\ progress w' = num 0 /\ total w' = num 0 /\ percentage w' = num 0 /\
  status w' = S_connecting /\ error w' = VNull /\
  shouldReconnectRef w' = true /\ statusRef w' = status w /\
  sockets w' = sockets (cleanup w) ++ [mkSocket job CONNECTING false] /\
  wsRef w' = Some (length (sockets w)) /\
  (forall id, wsRef w = Some id -> is_open id w' = false) /\
  (forall t tm, reconnectTimeoutRef w = Some t -> timers w' !! t = Some tm ->
                pending tm = false).
Proof.
  intros Hreg Hjob Hurl.
  assert (Hlen : length (sockets (cleanup w)) = length (sockets w)).
  { rewrite cleanup_fields. world_fields. destruct (wsRef w) as [id|]; [|reflexivity].
    unfold ws_close. destruct (sockets w !! id) as [s|]; [|reflexivity].
    destruct (readyState s); setters; rewrite ?length_insert; reflexivity. }
  pose proof (cleanup_resets w) as (Hf & _ & _ & Hl & Hp & Ht & Hpc & _).
  pose proof (fun id => cleanup_closes_current id w) as Hcl.
  pose proof (fun t tm => cleanup_clears_timer t tm w) as Hct.
  assert (Hnt : forall t, timers w !! t = None -> timers (cleanup w) !! t = None).
  { intros t Hn. rewrite cleanup_fields. world_fields.
    destruct (reconnectTimeoutRef w) as [t'|]; [|exact Hn].
    unfold clearTimeout. destruct (timers w !! t') as [tm'|]; [|exact Hn].
    setters. apply lookup_ge_None. rewrite length_insert.
    now apply lookup_ge_None. }
  cbv zeta in *. cbn [WS.step]. rewrite Hreg.
  destruct (cleanup w) as [lg pr tot pc st er ws rt sr flag reg sk tms clock].
  cbn in Hlen, Hf, Hl, Hp, Ht, Hpc, Hcl, Hct, Hnt. subst.
  unfold effect, connect. cbn. rewrite Hjob. cbn. rewrite Hurl. cbn.
  rewrite Hlen. repeat split.
  - intros id Hid. specialize (Hcl id Hid).
    unfold is_open, readyState_of in *. cbn in *.
    destruct (sk !! id) as [s|] eqn:Hs.
    + rewrite (lookup_app_l_Some _ _ _ _ Hs). exact Hcl.
    + apply lookup_ge_None in Hs.
      destruct (decide (id = length sk)) as [->|Hne].
      * rewrite lookup_snoc. reflexivity.
      * rewrite lookup_ge_None_2; [reflexivity|].
        rewrite length_app. cbn. lia.
  - intros t tm Ht' Htm.
    destruct (timers w !! t) as [tm0|] eqn:Ht0.
    + rewrite (Hct t tm0 Ht' Ht0) in Htm. now inversion Htm.
    + rewrite (Hnt t Ht0) in Htm. discriminate.
Qed.

(** X10. After the cleanup, the timer and the socket that the refs held are
    inert: the timer's expiry, the socket's open event and any frame on it
    leave the hook exactly as the cleanup left it. *)
Theorem cleanup_cancels (id t : nat) (w : World) :
  wsRef w = Some id ->
  reconnectTimeoutRef w = Some t ->
  let w' := cleanup w in
  step w' (TimerFire t) = w' /\
  (forall parsed, step w' (SockMessage id parsed) = w') /\
  step w' (SockOpen id) = w'.
Proof.
  intros Hid Ht. cbv zeta. split; [|apply closing_socket_inert].
  - cbn [WS.step]. destruct (timers w !! t) as [tm|] eqn:Htm.
    + rewrite (cleanup_clears_timer t tm w Ht Htm). reflexivity.
    + rewrite cleanup_fields, Ht. world_fields. unfold clearTimeout.
      rewrite Htm, Htm. reflexivity.
  - now apply cleanup_closes_current.
  - intros s Hs. rewrite cleanup_fields, Hid in Hs. world_fields.
    now apply (ws_close_not_connecting id w s).
Qed.

(** X11. Stopping is idempotent: running the cleanup a second time finds
    both refs empty and writes the values already there, so the hook state
    is the same as after one run; a second unmount does nothing. *)
Theorem stop_twice_same (w : World) :
  cleanup (cleanup w) = cleanup w /\
  step (step w Unmount) Unmount = step w Unmount.
Proof.
  split; [apply cleanup_idempotent|].
  cbn [WS.step]. destruct (cleanupRegistered w) eqn:Hreg.
  - destruct (cleanup w). reflexivity.
  - now rewrite Hreg.
Qed.

(** X12. In the stream of one job (no change of job id, no unmount) there
    is never more than one socket that is not closed, no reconnect timer is
    pending while there is one, at most one timer is pending at all, and
    every socket is for that job. *)
Theorem one_live_socket (job : value) (es : list Event) :
  forallb stream_event es = true ->
  let w := run initial (JobChange job :: es) in
  (forall i j si sj,
     sockets w !! i = Some si -> sockets w !! j = Some sj ->
     readyState si <> CLOSED -> readyState sj <> CLOSED -> i = j) /\
  (forall i si t tm,
     sockets w !! i = Some si -> readyState si <> CLOSED ->
     timers w !! t = Some tm -> pending tm = false) /\
  (forall t t' tm tm',
     timers w !! t = Some tm -> timers w !! t' = Some tm' ->
     pending tm = true -> pending tm' = true -> t = t') /\
  (forall i si, sockets w !! i = Some si -> sock_job si = job).
Proof.
  intros Hes w.
  pose proof (stream_inv url_error job es Hes : StreamInv url_error job w) as Hinv.
  clearbody w. destruct Hinv.
  assert (Hlive : forall i si, sockets w !! i = Some si ->
                    readyState si <> CLOSED -> close_fired si = false).
  { intros i si Hs Hr. destruct (close_fired si) eqn:Hf; [|reflexivity].
    destruct Hr. eauto. }
  split; [|split; [|split]].
  - intros i j si sj Hi Hj Hri Hrj.
    pose proof (inv_last_socket0 _ _ Hi (Hlive _ _ Hi Hri)).
    pose proof (inv_last_socket0 _ _ Hj (Hlive _ _ Hj Hrj)). lia.
  - intros i si t tm Hi Hri Ht. destruct (pending tm) eqn:Hp; [|reflexivity].
    destruct (inv_socket_timer0 _ _ _ _ Hi (Hlive _ _ Hi Hri) Ht Hp).
  - intros t t' tm tm' Ht Ht' Hp Hp'.
    pose proof (inv_last_timer0 _ _ Ht Hp).
    pose proof (inv_last_timer0 _ _ Ht' Hp'). lia.
  - exact inv_sock_job0.
Qed.

End Stream.

(** *** Instances *)

Lemma unknown_frame_ignored_witness :
  step accepts_all streaming (SockMessage 0%nat (Some (VObj [("type", VStr "ping")])))
  = streaming.
Proof.
  apply (unknown_frame_ignored accepts_all 0%nat
           (Some (VObj [("type", VStr "ping")])) streaming).
  reflexivity.
Defined.

Lemma log_frames_in_order_witness :
  let ds := [VObj [("type", VStr "log"); ("message", VStr "a")];
             VObj [("type", VStr "log"); ("message", VStr "a")]] in
  run accepts_all streaming (deliver 0%nat ds) =
  setLogs (fun prev => prev ++
             map (fun d => L_log (get_opt d "message") (now streaming)) ds) streaming.
Proof.
  apply (log_frames_in_order accepts_all 0%nat
           [VObj [("type", VStr "log"); ("message", VStr "a")];
            VObj [("type", VStr "log"); ("message", VStr "a")]] streaming).
  - reflexivity.
  - repeat constructor.
Defined.

Lemma progress_last_write_wins_witness :
  let ps := [VObj [("type", VStr "progress"); ("percentage", num 80)]] in
  let p := VObj [("type", VStr "progress"); ("processed", num 5);
                 ("total", num 10); ("percentage", num 50)] in
  let w' := run accepts_all streaming (deliver 0%nat (ps ++ [p])) in
  progress w' = or_else (get_opt p "processed") (num 0) /\
  total w' = or_else (get_opt p "total") (num 0) /\
  percentage w' = or_else (get_opt p "percentage") (num 0) /\
  logs w' = logs streaming ++
    map (fun p => L_progress (get_opt p "message") (get_opt p "processed")
                             (get_opt p "total") (get_opt p "percentage")
                             (now streaming))
        (ps ++ [p]).
Proof.
  apply (progress_last_write_wins accepts_all 0%nat
           [VObj [("type", VStr "progress"); ("percentage", num 80)]]
           (VObj [("type", VStr "progress"); ("processed", num 5);
                  ("total", num 10); ("percentage", num 50)]) streaming).
  - reflexivity.
  - repeat constructor.
Defined.

Lemma logs_append_only_witness :
  let es := [SockMessage 0%nat (Some complete_frame); Commit; SockClose 0%nat] in
  exists l, logs (run accepts_all streaming es) = logs streaming ++ l /\
            (length l <= length es)%nat.
Proof.
  apply (logs_append_only accepts_all
           [SockMessage 0%nat (Some complete_frame); Commit; SockClose 0%nat] streaming).
  reflexivity.
Defined.

Lemma terminal_frame_silences_socket_witness :
  let w' := step accepts_all streaming (SockMessage 0%nat (Some complete_frame)) in
  shouldReconnectRef w' = false /\
  is_open 0%nat w' = false /\
  (forall parsed, step accepts_all w' (SockMessage 0%nat parsed) = w') /\
  timers (step accepts_all w' (SockClose 0%nat)) = timers w' /\
  length (sockets (step accepts_all w' (SockClose 0%nat))) = length (sockets w').
Proof.
  apply (terminal_frame_silences_socket accepts_all 0%nat complete_frame streaming);
    reflexivity.
Defined.

Lemma error_frame_effects_witness :
  let w' := step accepts_all streaming (SockMessage 0%nat (Some error_frame)) in
  status w' = S_error /\
  error w' = get_opt error_frame "message" /\
  logs w' = logs streaming ++
    [L_error (get_opt error_frame "message") (get_opt error_frame "detail")
             (now streaming)] /\
  progress w' = progress streaming /\ total w' = total streaming /\
  percentage w' = percentage streaming.
Proof.
  apply (error_frame_effects accepts_all 0%nat error_frame streaming); reflexivity.
Defined.

Lemma stopped_never_reconnects_witness :
  let w := step accepts_all streaming (SockMessage 0%nat (Some error_frame)) in
  let w' := run accepts_all w [SockClose 0%nat; Commit; Tick 5000; TimerFire 0%nat] in
  shouldReconnectRef w' = false /\
  length (sockets w') = length (sockets w) /\
  length (timers w') = length (timers w) /\
  wsRef w' = wsRef w.
Proof.
  apply (stopped_never_reconnects accepts_all
           [SockClose 0%nat; Commit; Tick 5000; TimerFire 0%nat]
           (step accepts_all streaming (SockMessage 0%nat (Some error_frame))));
    reflexivity.
Defined.

Lemma rejected_url_stays_error_witness :
  let w' := run rejects_all initial (JobChange job1 :: [Commit; Tick 3000; Commit]) in
  status w' = S_error /\ error w' = VStr "invalid URL" /\
  sockets w' = [] /\ timers w' = [] /\ logs w' = [].
Proof.
  apply (rejected_url_stays_error rejects_all job1 "invalid URL"
           [Commit; Tick 3000; Commit]); reflexivity.
Defined.

Lemma job_change_restarts_witness :
  let job := VStr "job-2" in
  let w' := step accepts_all streaming (JobChange job) in
  logs w' = [] /\ progress w' = num 0 /\ total w' = num 0 /\ percentage w' = num 0 /\
  status w' = S_connecting /\ error w' = VNull /\
  shouldReconnectRef w' = true /\ statusRef w' = status streaming /\
  sockets w' = sockets (cleanup streaming) ++ [mkSocket job CONNECTING false] /\
  wsRef w' = Some (length (sockets streaming)) /\
  (forall id, wsRef streaming = Some id -> is_open id w' = false) /\
  (forall t tm, reconnectTimeoutRef streaming = Some t -> timers w' !! t = Some tm ->
                pending tm = false).
Proof.
  apply (job_change_restarts accepts_all (VStr "job-2") streaming); reflexivity.
Defined.

Lemma cleanup_cancels_witness :
  let w := step accepts_all streaming (SockClose 0%nat) in
  let w' := cleanup w in
  step accepts_all w' (TimerFire 0%nat) = w' /\
  (forall parsed, step accepts_all w' (SockMessage 0%nat parsed) = w') /\
  step accepts_all w' (SockOpen 0%nat) = w'.
Proof.
  apply (cleanup_cancels accepts_all 0%nat 0%nat
           (step accepts_all streaming (SockClose 0%nat))); reflexivity.
Defined.

Lemma one_live_socket_witness :
  let es := [Commit; SockOpen 0%nat; Commit; SockClose 0%nat; Tick 3000;
             TimerFire 0%nat] in
  let w := run accepts_all initial (JobChange job1 :: es) in
  (forall i j si sj,
     sockets w !! i = Some si -> sockets w !! j = Some sj ->
     readyState si <> CLOSED -> readyState sj <> CLOSED -> i = j) /\
  (forall i si t tm,
     sockets w !! i = Some si -> readyState si <> CLOSED ->
     timers w !! t = Some tm -> pending tm = false) /\
  (forall t t' tm tm',
     timers w !! t = Some tm -> timers w !! t' = Some tm' ->
     pending tm = true -> pending tm' = true -> t = t') /\
  (forall i si, sockets w !! i = Some si -> sock_job si = job1).
Proof.
  apply (one_live_socket accepts_all job1
           [Commit; SockOpen 0%nat; Commit; SockClose 0%nat; Tick 3000;
            TimerFire 0%nat]).
  reflexivity.
Defined.

End WSExtra.

(* ================================================================== *)
(** ** More facts about useProductUpload and UploadWidget *)

Module UploadExtra.
Import JS Upload Widget.

(** *** File names *)

Lemma substring_all (s : string) : substring 0 (String.length s) s = s.
Proof. induction s as [|c s IH]; cbn; [reflexivity|now rewrite IH]. Qed.

Lemma substring_skip (p s : string) (m : nat) :
  substring (String.length p) m (p ++ s) = substring 0 m s.
Proof. induction p as [|c p IH]; cbn; [reflexivity|exact IH]. Qed.

Lemma string_length_append (p s : string) :
  String.length (p ++ s) = (String.length p + String.length s)%nat.
Proof. induction p as [|c p IH]; cbn; [reflexivity|now rewrite IH]. Qed.

Lemma substring_split (s : string) (k : nat) :
  (k <= String.length s)%nat ->
  s = (substring 0 k s ++ substring k (String.length s - k) s)%string.
Proof.
  revert k. induction s as [|c s IH]; intros [|k] Hk; cbn in *;
    try reflexivity; try lia.
  - now rewrite substring_all.
  - f_equal. apply IH. lia.
Qed.

(** [s.endsWith(suffix)] holds exactly when [s] is some prefix followed by
    [suffix]. *)
Lemma endsWith_iff (s suffix : string) :
  endsWith s suffix = true <-> exists p, s = (p ++ suffix)%string.
Proof.
  unfold endsWith. split.
  - intros H. apply andb_true_iff in H as [Hlen Heq].
    apply Nat.leb_le in Hlen. apply String.eqb_eq in Heq.
    exists (substring 0 (String.length s - String.length suffix) s).
    pose proof (substring_split s (String.length s - String.length suffix)
                  ltac:(lia)) as Hsplit.
    replace (String.length s - (String.length s - String.length suffix))%nat
      with (String.length suffix) in Hsplit by lia.
    rewrite Heq in Hsplit. exact Hsplit.
  - intros [p ->]. rewrite string_length_append.
    replace (String.length p + String.length suffix - String.length suffix)%nat
      with (String.length p) by lia.
    rewrite substring_skip, substring_all, String.eqb_refl.
    rewrite (proj2 (Nat.leb_le _ _)) by lia. reflexivity.
Qed.


(** X13. The validation lets through exactly the names that are some prefix
    (possibly empty) followed by [.csv] or by [.CSV]. *)
Theorem accepted_names (f : File) :
  accepted f = true <->
  exists p, name f = (p ++ ".csv")%string \/ name f = (p ++ ".CSV")%string.
Proof.
  unfold accepted. rewrite orb_true_iff, !endsWith_iff. split.
  - intros [[p H]|[p H]]; exists p; auto.
  - intros [p [H|H]]; [left|right]; now exists p.
Qed.

(** *** What an upload does *)

Lemma uploadFile_passed (env : Env) (f : File) (st : HookState) :
  accepted f = true ->
  uploadFile env (Some f) st =
  match try_block env f with
  | (Fulfilled newJobId, io) => (newJobId, mkState false newJobId VNull, io)
  | (Rejected err, io) => (VNull, mkState false VNull (errorMessage err), io)
  end.
Proof.
  intros H. rewrite UploadProofs.uploadFile_accepted by exact H.
  cbv zeta. destruct (try_block env f) as [[v|err] io]; reflexivity.
Qed.

Lemma uploadFile_refused (env : Env) (file : option File) (st : HookState) :
  match file with Some f => accepted f = false | None => True end ->
  snd (uploadFile env file st) = [].
Proof.
  destruct file as [f|]; [|reflexivity].
  unfold accepted, uploadFile. intros H. apply orb_false_iff in H as [-> ->].
  reflexivity.
Qed.

(** X14. The I/O of an upload is always an initial part of: read the file,
    compress its re-encoded text, post the compressed bytes under the file's
    name with [.gz] appended. Nothing is done for a missing or refused file;
    the sequence stops after the read if it fails and after the compression
    if that fails; the post is made once, with what the codec returned. *)
Theorem upload_io_shape (env : Env) (file : option File) (st : HookState) :
  let io := snd (uploadFile env file st) in
  io = [] \/
  exists f, file = Some f /\ accepted f = true /\
    let data := Encoding.TextEncoder_encode (Encoding.text (content f)) in
    (io = [IO_read f] /\ read_error env f <> None) \/
    (read_error env f = None /\
     ((io = [IO_read f; IO_gzip data] /\ exists err, gzip env data = Rejected err) \/
      (exists blob, gzip env data = Fulfilled blob /\
         io = [IO_read f; IO_gzip data; IO_post (name f ++ ".gz")%string blob]))).
Proof.
  cbv zeta. destruct file as [f|]; [|left; reflexivity].
  destruct (accepted f) eqn:Hacc;
    [|left; now apply (uploadFile_refused env (Some f))].
  right. exists f. split; [reflexivity|]. split; [exact Hacc|].
  rewrite uploadFile_passed by exact Hacc.
  unfold try_block, compress, submit.
  destruct (read_error env f) as [err|] eqn:Hread.
  - left. split; [reflexivity|discriminate].
  - right. split; [reflexivity|].
    destruct (gzip env _) as [blob|err] eqn:Hgz.
    + right. exists blob. split; [reflexivity|].
      destruct (post env _ blob) as [body|err]; [destruct (get body "job_id")|];
        reflexivity.
    + left. split; [reflexivity|now exists err].
Qed.



(** X16. When the post is rejected, the error shown is the [detail] of the
    response body if there is a truthy one, else the exception's message if
    truthy, else ['Upload failed']; no job id is stored and [null] is
    returned. *)
Theorem submission_error_message
    (env : Env) (f : File) (st : HookState)
    (compressed : list byte) (io : list IO) (err : Thrown) :
  accepted f = true ->
  compress env f = (Fulfilled compressed, io) ->
  post env (name f ++ ".gz")%string compressed = Rejected err ->
  let detail := get_opt (err_response_data err) "detail" in
  uploadFile env (Some f) st =
  (VNull,
   mkState false VNull
     (if truthy detail then detail
      else if truthy (err_message err) then err_message err
      else VStr "Upload failed"),
   io ++ [IO_post (name f ++ ".gz")%string compressed]).
Proof.
  intros Hacc Hc Hpost. cbv zeta. rewrite uploadFile_passed by exact Hacc.
  unfold try_block, submit. rewrite Hc, Hpost.
  unfold errorMessage, or_else.
  destruct (truthy (get_opt (err_response_data err) "detail")) eqn:Hd.
  - now rewrite Hd.
  - reflexivity.
Qed.

(** X17. Whatever bytes the file holds, what is handed to the compressor is
    well-formed UTF-8: the encoding of a sequence of Unicode scalar values
    (the text decoded from the file, with U+FFFD where the bytes were not
    UTF-8). *)
Theorem compressor_input_wellformed
    (env : Env) (f : File) (data : list byte) :
  In (IO_gzip data) (snd (compress env f)) ->
  Forall Encoding.is_scalar (Encoding.utf8_decode (content f)) /\
  data = Encoding.utf8_encode (Encoding.utf8_decode (content f)).
Proof.
  destruct (EncodingExtra.encoded_text_wellformed (content f)) as [Hs He].
  unfold compress. destruct (read_error env f); cbn.
  - intros [H|[]]. discriminate.
  - intros [H|[H|[]]]; [discriminate|]. inversion H. subst. auto.
Qed.

(** *** Drag and drop *)

Lemma csvFile_first (pre post : list File) (f : File) :
  Forall (fun g => accepted g = false) pre ->
  accepted f = true ->
  csvFile (pre ++ f :: post) = Some f.
Proof.
  unfold csvFile, accepted. intros Hpre Hf.
  induction Hpre as [|g pre Hg _ IH]; cbn.
  - now rewrite Hf.
  - now rewrite Hg.
Qed.

Lemma csvFile_none (files : list File) :
  Forall (fun g => accepted g = false) files -> csvFile files = None.
Proof.
  unfold csvFile, accepted. induction 1 as [|g files Hg _ IH]; cbn;
    [reflexivity|now rewrite Hg].
Qed.

(** X18. A drop uploads the first dropped file whose name the validation
    accepts, and only that one: the files before it are skipped, the ones
    after it ignored, and the upload starts by reading that file. *)
Theorem handleDrop_first_csv
    (env : Env) (pre post : list File) (f : File) (ws : WidgetState) :
  Forall (fun g => accepted g = false) pre ->
  accepted f = true ->
  let res := uploadFile env (Some f) (upload ws) in
  handleDrop env (pre ++ f :: post) ws = (mkWidget false (snd (fst res)), snd res) /\
  exists rest, snd res = IO_read f :: rest.
Proof.
  intros Hpre Hf. cbv zeta. unfold handleDrop.
  rewrite (csvFile_first pre post f Hpre Hf).
  split; [destruct (uploadFile env (Some f) (upload ws)) as [[r st] io]; reflexivity|].
  rewrite uploadFile_passed by exact Hf.
  unfold try_block, compress.
  destruct (read_error env f); [eexists; reflexivity|].
  destruct (gzip env _); [|eexists; reflexivity].
  destruct (submit env f _) as [[v|err] io']; eexists; reflexivity.
Qed.

(** X19. A drop without any file of an accepted name does nothing: no
    upload, no I/O, and no error message either, unlike a file chosen through
    the file input, which gets the validation message. *)
Theorem handleDrop_without_csv_silent
    (env : Env) (g : File) (rest : list File) (ws : WidgetState) :
  Forall (fun g => accepted g = false) (g :: rest) ->
  handleDrop env (g :: rest) ws = (mkWidget false (upload ws), []) /\
  handleFileSelect env (g :: rest) ws
  = (mkWidget (isDragging ws)
       (Upload.setError (VStr "File must be a CSV file") (upload ws)), []).
Proof.
  intros Hall. unfold handleDrop, handleFileSelect.
  rewrite (csvFile_none _ Hall). split; [reflexivity|].
  apply Forall_inv in Hall. unfold accepted in Hall.
  apply orb_false_iff in Hall as [H1 H2].
  rewrite (UploadProofs.uploadFile_validation env g (upload ws) H1 H2).
  reflexivity.
Qed.

(** *** Instances *)


Lemma submission_error_message_witness :
  let err := mkThrown (VStr "Request failed with status code 400")
                      (VObj [("detail", VStr "Only CSV files are accepted")]) in
  let f := mkFile "products.CSV" [Byte.x61] in
  let detail := get_opt (err_response_data err) "detail" in
  uploadFile (failing err) (Some f) initial =
  (VNull,
   mkState false VNull
     (if truthy detail then detail
      else if truthy (err_message err) then err_message err
      else VStr "Upload failed"),
   [IO_read f; IO_gzip [Byte.x61]]
   ++ [IO_post (name f ++ ".gz")%string (Byte.x1f :: Byte.x8b :: [Byte.x61])]).
Proof.
  apply (submission_error_message
           (failing (mkThrown (VStr "Request failed with status code 400")
                              (VObj [("detail", VStr "Only CSV files are accepted")])))
           (mkFile "products.CSV" [Byte.x61]) initial
           (Byte.x1f :: Byte.x8b :: [Byte.x61])
           [IO_read (mkFile "products.CSV" [Byte.x61]); IO_gzip [Byte.x61]]
           (mkThrown (VStr "Request failed with status code 400")
                     (VObj [("detail", VStr "Only CSV files are accepted")])));
    reflexivity.
Defined.

Lemma compressor_input_wellformed_witness :
  let f := mkFile "products.csv" [Byte.xff] in
  let data := [Byte.xef; Byte.xbf; Byte.xbd] in
  Forall Encoding.is_scalar (Encoding.utf8_decode (content f)) /\
  data = Encoding.utf8_encode (Encoding.utf8_decode (content f)).
Proof.
  apply (compressor_input_wellformed (backend VNull)
           (mkFile "products.csv" [Byte.xff]) [Byte.xef; Byte.xbf; Byte.xbd]).
  vm_compute. right. left. reflexivity.
Defined.

Lemma handleDrop_first_csv_witness :
  let env := backend (VObj [("job_id", VStr "job-1")]) in
  let pre := [mkFile "notes.txt" []; mkFile "data.Csv" []] in
  let f := mkFile "products.csv" [Byte.x61] in
  let post := [mkFile "more.csv" []] in
  let ws := mkWidget true initial in
  let res := uploadFile env (Some f) (upload ws) in
  handleDrop env (pre ++ f :: post) ws = (mkWidget false (snd (fst res)), snd res) /\
  exists rest, snd res = IO_read f :: rest.
Proof.
  apply (handleDrop_first_csv (backend (VObj [("job_id", VStr "job-1")]))
           [mkFile "notes.txt" []; mkFile "data.Csv" []]
           [mkFile "more.csv" []]
           (mkFile "products.csv" [Byte.x61])
           (mkWidget true initial)).
  - repeat constructor.
  - reflexivity.
Defined.

Lemma handleDrop_without_csv_silent_witness :
  let env := backend VNull in
  let ws := mkWidget true initial in
  handleDrop env (mkFile "data.Csv" [] :: [mkFile "notes.txt" []]) ws
  = (mkWidget false (upload ws), []) /\
  handleFileSelect env (mkFile "data.Csv" [] :: [mkFile "notes.txt" []]) ws
  = (mkWidget (isDragging ws)
       (Upload.setError (VStr "File must be a CSV file") (upload ws)), []).
Proof.
  apply (handleDrop_without_csv_silent (backend VNull)
           (mkFile "data.Csv" []) [mkFile "notes.txt" []] (mkWidget true initial)).
  repeat constructor.
Defined.

End UploadExtra.
